(** * Amazon price tracker: the price-extraction pipeline of [price_tracker.py]

    A shallow embedding of [AmazonPriceTracker.get_price], [parse_price],
    [validate_price] and [update_price_history], and the properties the
    specification states about them.

    Conventions of the embedding:
    - a Python [str] is a list of characters; a character is an [ascii], read
      as a code point below 256.  On these code points the regular-expression
      class [\d] is exactly ['0'..'9'];
    - a Python [float] is an IEEE 754 binary64 number, represented by the
      standard library's [spec_float] with [prec = 53] and [emax = 1024];
    - the network, the random generator, the clock and the HTML parser are
      inputs of the model: one [attempt_env] per retry-loop iteration;
    - logging, sleeping and the HTTP request are recorded in a trace of
      [event]s returned next to the result. *)

From Stdlib Require Import ZArith List Ascii String QArith Lia Bool.
From Stdlib Require Import Floats.SpecFloat Floats.PrimFloat Floats.FloatOps.
From stdpp Require Import gmap strings.

Set Warnings "-inexact-float".

Abbreviation str := (list ascii).

(** A string literal as a list of characters. *)
Definition lit (s : string) : str := list_ascii_of_string s.

(** ** Binary64 floating point *)

Module Float.

Definition prec : Z := 53.
Definition emax : Z := 1024.

Abbreviation float := spec_float.

Definition add : float -> float -> float := SFadd prec emax.
Definition mul : float -> float -> float := SFmul prec emax.
Definition leb : float -> float -> bool := SFleb.
Definition ltb : float -> float -> bool := SFltb.
Definition valid : float -> bool := valid_binary prec emax.

(** Conversion of a Python [int] to [float] (round to nearest, ties to
    even; exact below [2^53]). *)
Definition of_Z (z : Z) : float := binary_normalize prec emax z 0 false.

Definition pow10 (k : nat) : positive := Nat.iter k (Pos.mul 10) 1%positive.

(** The binary64 number nearest to [n / 10^k], ties to even: what Python's
    correctly rounded [float()] gives for the decimal numeral with digits
    [n] and [k] digits after the point.  The quotient is rounded once, by
    the library's division algorithm. *)
Definition of_decimal (n : N) (k : nat) : float :=
  match n with
  | N0 => S754_zero false
  | Npos p => SFdiv prec emax (S754_finite false p 0)
                              (S754_finite false (pow10 k) 0)
  end.

(** Python truth value of a float: [bool(x)] is [x != 0.0]. *)
Definition truthy (x : float) : bool :=
  match x with
  | S754_zero _ => false
  | _ => true
  end.

(** The exact rational value of a finite float. *)
Definition to_Q (x : float) : Q :=
  match x with
  | S754_finite s m e =>
      let n := if s then Zneg m else Zpos m in
      match e with
      | Zneg k => Qmake n (Pos.pow 2 k)
      | _ => Qmake (n * 2 ^ e) 1
      end
  | _ => 0%Q
  end.

Definition is_finite (x : float) : bool :=
  match x with
  | S754_finite _ _ _ | S754_zero _ => true
  | _ => false
  end.

End Float.

Import Float.

(** ** Characters and strings *)

Definition code (c : ascii) : N := N_of_ascii c.

(** [\d] on code points below 256. *)
Definition is_digit (c : ascii) : bool :=
  ((48 <=? code c) && (code c <=? 57))%N.

Definition digit_value (c : ascii) : N := (code c - 48)%N.

Definition ascii_eqb (a b : ascii) : bool := Ascii.eqb a b.

Arguments is_digit : simpl never.
Arguments ascii_eqb : simpl never.

(** [str.lower()] on code points below 256: the ASCII capitals and the
    Latin-1 capitals (all of [U+00C0..U+00DE] but the multiplication sign). *)
Definition lower_char (c : ascii) : ascii :=
  let n := code c in
  if (((65 <=? n) && (n <=? 90))
      || ((192 <=? n) && (n <=? 222) && negb (n =? 215)))%N
  then ascii_of_N (n + 32) else c.

Definition lower (s : str) : str := map lower_char s.

(** Characters removed by [str.strip()] (code points below 256 for which
    [str.isspace()] holds). *)
Definition is_space (c : ascii) : bool :=
  let n := code c in
  (((9 <=? n) && (n <=? 13)) || ((28 <=? n) && (n <=? 32))
   || (n =? 133) || (n =? 160))%N.

Fixpoint lstrip (s : str) : str :=
  match s with
  | c :: s' => if is_space c then lstrip s' else s
  | [] => []
  end.

Definition strip (s : str) : str := rev (lstrip (rev (lstrip s))).

Fixpoint is_prefix (p s : str) : bool :=
  match p, s with
  | [], _ => true
  | a :: p', b :: s' => ascii_eqb a b && is_prefix p' s'
  | _ :: _, [] => false
  end.

(** [needle in haystack]. *)
Fixpoint contains (needle hay : str) : bool :=
  is_prefix needle hay ||
  match hay with
  | [] => false
  | _ :: hay' => contains needle hay'
  end.

(** ** Regular expressions: the fragment used by [parse_price]

    A backtracking matcher in the priority order of Python's [re]: [matches r
    s] lists, most preferred first, the remainders of [s] after each way of
    matching [r] at its start.  All repetitions are greedy. *)

Inductive regex : Type :=
| Digit                                   (* \d     *)
| Chr (c : ascii)                         (* a literal character *)
| Cat (r1 r2 : regex)                     (* r1r2   *)
| Star (r : regex)                        (* r*     *)
| Plus (r : regex)                        (* r+     *)
| Opt (r : regex)                         (* r?     *)
| Times (n : nat) (r : regex).            (* r{n}   *)

Section Matcher.

(** Greedy iteration of a one-step matcher [m]: try one more iteration
    first, stop otherwise.  An iteration that consumes nothing is not
    repeated; [fuel] bounds the number of iterations by the length of the
    text. *)
Fixpoint star (m : str -> list str) (fuel : nat) (s : str) : list str :=
  match fuel with
  | O => [s]
  | S fuel' =>
      flat_map (fun s' => if (length s' <? length s)%nat
                          then star m fuel' s' else []) (m s)
      ++ [s]
  end.

Fixpoint times (m : str -> list str) (n : nat) (s : str) : list str :=
  match n with
  | O => [s]
  | S n' => flat_map (times m n') (m s)
  end.

Fixpoint matches (r : regex) (s : str) : list str :=
  match r with
  | Digit =>
      match s with
      | c :: s' => if is_digit c then [s'] else []
      | [] => []
      end
  | Chr a =>
      match s with
      | c :: s' => if ascii_eqb a c then [s'] else []
      | [] => []
      end
  | Cat r1 r2 => flat_map (matches r2) (matches r1 s)
  | Star r' => star (matches r') (length s) s
  | Plus r' => flat_map (fun s' => star (matches r') (length s') s')
                        (matches r' s)
  | Opt r' => matches r' s ++ [s]
  | Times n r' => times (matches r') n s
  end.

(** [re.search(r, s)] followed by [.group(1)], for a pattern that is one
    capturing group: the text of the preferred match at the leftmost
    position where [r] matches; [None] when there is no match. *)
Fixpoint re_search (r : regex) (s : str) : option str :=
  match matches r s with
  | rest :: _ => Some (take (length s - length rest) s)
  | [] =>
      match s with
      | [] => None
      | _ :: s' => re_search r s'
      end
  end.

End Matcher.

(** ** [parse_price] *)

(** [re.sub(r'[^\d.,\-]', '', price_text)]: keep digits, dots, commas and
    hyphens. *)
Definition kept (c : ascii) : bool :=
  is_digit c || ascii_eqb c "." || ascii_eqb c "," || ascii_eqb c "-".

Definition clean (price_text : str) : str := List.filter kept price_text.

Definition digits1 : regex := Plus Digit.
Definition digits0 : regex := Star Digit.

(** [(?:,\d{3})] *)
Definition group3 : regex := Cat (Chr ",") (Times 3 Digit).

(** The one capturing group [\d+(?:,\d{3})*\.?\d*] (standard format). *)
Definition pattern_standard : regex :=
  Cat digits1 (Cat (Star group3) (Cat (Opt (Chr ".")) digits0)).

(** The one capturing group [\d+\.?\d*] (simple format). *)
Definition pattern_simple : regex :=
  Cat digits1 (Cat (Opt (Chr ".")) digits0).

(** The one capturing group [\d+,\d+] (European format). *)
Definition pattern_european : regex :=
  Cat digits1 (Cat (Chr ",") digits1).

Definition price_patterns : list regex :=
  [pattern_standard; pattern_simple; pattern_european].

(** [.replace(',', '')] *)
Definition remove_commas (s : str) : str :=
  List.filter (fun c => negb (ascii_eqb c ",")) s.

(** The digits at the start of a text, read as a decimal number, with their
    count and the rest of the text. *)
Fixpoint read_digits (acc : N) (count : nat) (s : str) : N * nat * str :=
  match s with
  | c :: s' =>
      if is_digit c then read_digits (10 * acc + digit_value c) (S count) s'
      else (acc, count, s)
  | [] => (acc, count, s)
  end.

(** [float(price_str)] on texts made of digits and dots, the only ones
    [parse_price] ever converts (lemma [price_str_alphabet]): the numerals
    [d+], [d+.], [d+.d+] and [.d+] denote the nearest binary64 number; any
    other text raises [ValueError], rendered as [None]. *)
Definition py_float (s : str) : option float :=
  let '(ip, ni, s1) := read_digits 0 0 s in
  match s1 with
  | [] => if (0 <? ni)%nat then Some (of_decimal ip 0) else None
  | c :: s2 =>
      if ascii_eqb c "." then
        let '(n, nf, s3) := read_digits ip 0 s2 in
        match s3 with
        | [] => if (0 <? ni + nf)%nat then Some (of_decimal n nf) else None
        | _ :: _ => None
        end
      else None
  end.

(** The loop over [price_patterns]: the first pattern that matches and
    whose text converts gives the result. *)
Fixpoint parse_with (patterns : list regex) (cleaned : str) : option float :=
  match patterns with
  | [] => None
  | pattern :: rest =>
      match re_search pattern cleaned with
      | Some group1 =>
          match py_float (remove_commas group1) with
          | Some price => Some price
          | None => parse_with rest cleaned
          end
      | None => parse_with rest cleaned
      end
  end.

Definition parse_price (price_text : str) : option float :=
  match price_text with
  | [] => None
  | _ => parse_with price_patterns (clean price_text)
  end.

(** ** [validate_price] *)

Definition price_min : float := of_decimal 1 2.       (* 0.01  *)
Definition price_max : float := of_Z 50000.           (* 50000 *)

(** [0.01 <= price <= 50000] *)
Definition validate_price (price : float) : bool :=
  leb price_min price && leb price price_max.

(** ** [get_price] *)

(** What the HTML parser shows of a fetched page.  [select sel] stands for
    [soup.select(sel)] followed by [get_text()] on each selected element, in
    document order; [None] when the selection raises. *)
Record response : Type := {
  status_code : Z;
  text : str;
  select : str -> option (list str);
  title : option str
}.

(** The outcome of [session.get] and of parsing its answer. *)
Inductive fetch_result : Type :=
| Timeout                                  (* requests.exceptions.Timeout *)
| RequestError                             (* another RequestException    *)
| OtherError                               (* any other exception         *)
| Response (r : response).

(** The inputs of one iteration of the retry loop: the two random draws
    and the outcome of the request. *)
Record attempt_env : Type := {
  jitter : float;            (* random.uniform(-0.5, 0.5) *)
  bot_wait : float;          (* random.uniform(10, 20)    *)
  fetched : fetch_result
}.

Inductive log_message : Type :=
| MsgRetry (n : nat) (delay : float)
| MsgBotDetected (n : nat)
| MsgBotWait (delay : float)
| MsgFound (price : float) (selector : str)
| MsgSelectorError (selector : str)
| MsgNoPrice (n : nat) (page_title : str)
| MsgRedirected
| MsgTimeout (n : nat)
| MsgRequestFailed (n : nat)
| MsgUnexpected (n : nat)
| MsgFailed (max_retries : Z).

Inductive event : Type :=
| Sleep (seconds : float)
| SetupSession
| SetReferer
| HttpGet (url : str)
| Log (m : log_message).

Definition price_selectors : list str :=
  map lit
    [ "span.a-offscreen";
      "span#priceblock_dealprice";
      "span#priceblock_ourprice";
      "span.a-price-whole";
      "span.a-price.a-text-price.a-size-medium.apexPriceToPay";
      "span.a-price-range";
      ".a-price .a-offscreen";
      "#corePrice_feature_div .a-price .a-offscreen";
      "#apex_desktop .a-price .a-offscreen";
      ".a-price-to-pay .a-offscreen";
      "#priceblock_pactprice";
      ".a-price.a-text-price.a-size-medium.apexPriceToPay .a-offscreen" ]%string.

Definition bot_indicators : list str :=
  map lit
    [ "robot check"; "blocked"; "captcha"; "unusual traffic";
      "automated queries";
      "sorry, we just need to make sure you're not a robot";
      "enter the characters you see below";
      "type the characters you see in this image" ]%string.

(** [any(indicator in response_text for indicator in bot_indicators)] *)
Definition bot_detected (response_text : str) : bool :=
  existsb (fun indicator => contains indicator response_text) bot_indicators.

(** Python's [max(a, b)]: the first argument unless the second is greater. *)
Definition py_max (a b : float) : float := if ltb a b then b else a.

(** [2 + (attempt * 1.5)] *)
Definition base_delay (attempt : nat) : float :=
  add (of_Z 2) (mul (of_Z (Z.of_nat attempt)) (of_decimal 15 1)).

(** [max(1, base_delay + jitter)] *)
Definition backoff_delay (attempt : nat) (j : float) : float :=
  py_max (of_Z 1) (add (base_delay attempt) j).

(** Lines 157-162: the progressive delay before a retry. *)
Definition backoff (attempt : nat) (j : float) : list event :=
  if (0 <? attempt)%nat then
    let delay := backoff_delay attempt j in
    [Log (MsgRetry (attempt + 1) delay); Sleep delay]
  else [].

(** Lines 164-172: fresh session, referrer, request. *)
Definition request (url : str) : list event :=
  [SetupSession]
  ++ (if contains (lit "amazon.com") url then [SetReferer] else [])
  ++ [HttpGet url].

(** The inner loop over the elements of one selector (lines 198-204). *)
Fixpoint first_valid_price (texts : list str) : option float :=
  match texts with
  | [] => None
  | element_text :: rest =>
      match parse_price (strip element_text) with
      | Some price =>
          if truthy price && validate_price price then Some price
          else first_valid_price rest
      | None => first_valid_price rest
      end
  end.

(** The loop over the selectors (lines 195-207). *)
Fixpoint try_selectors (selectors : list str) (page : response)
  : list event * option float :=
  match selectors with
  | [] => ([], None)
  | selector :: rest =>
      match select page selector with
      | Some texts =>
          match first_valid_price texts with
          | Some price => ([Log (MsgFound price selector)], Some price)
          | None => try_selectors rest page
          end
      | None =>
          let '(events, result) := try_selectors rest page in
          (Log (MsgSelectorError selector) :: events, result)
      end
  end.

(** Lines 209-216: the diagnosis logged when no selector gave a price. *)
Definition no_price_events (attempt : nat) (page : response) : list event :=
  let t := match title page with Some t => t | None => lit "Unknown" end in
  Log (MsgNoPrice (attempt + 1) (take 100 t))
  :: (if negb (contains (lit "amazon") (lower t))
         && negb (contains (lit "error") (lower t))
      then [Log MsgRedirected] else []).

(** [response.raise_for_status()] raises on the 4xx and 5xx codes. *)
Definition raises_for_status (r : response) : bool :=
  ((400 <=? status_code r) && (status_code r <? 600))%Z.

(** What follows the request within one iteration (lines 173-223). *)
Definition after_request (max_retries : Z) (attempt : nat) (env : attempt_env)
  : list event * option float :=
  match fetched env with
  | Timeout => ([Log (MsgTimeout (attempt + 1))], None)
  | RequestError => ([Log (MsgRequestFailed (attempt + 1))], None)
  | OtherError => ([Log (MsgUnexpected (attempt + 1))], None)
  | Response r =>
      if raises_for_status r then ([Log (MsgRequestFailed (attempt + 1))], None)
      else if bot_detected (lower (text r)) then
        (Log (MsgBotDetected (attempt + 1))
         :: (if (Z.of_nat attempt <? max_retries - 1)%Z
             then [Log (MsgBotWait (bot_wait env)); Sleep (bot_wait env)]
             else []),
         None)
      else
        match try_selectors price_selectors r with
        | (events, Some price) => (events, Some price)
        | (events, None) => (events ++ no_price_events attempt r, None)
        end
  end.

(** One iteration of [for attempt in range(max_retries)]. *)
Definition attempt_body (url : str) (max_retries : Z) (attempt : nat)
  (env : attempt_env) : list event * option float :=
  let '(events, result) := after_request max_retries attempt env in
  (backoff attempt (jitter env) ++ request url ++ events, result).

(** The retry loop, with [remaining] iterations left from [attempt] on. *)
Fixpoint retry_loop (url : str) (max_retries : Z) (env : nat -> attempt_env)
  (remaining attempt : nat) : list event * option float :=
  match remaining with
  | O => ([Log (MsgFailed max_retries)], None)
  | S remaining' =>
      match attempt_body url max_retries attempt (env attempt) with
      | (events, Some price) => (events, Some price)
      | (events, None) =>
          let '(events', result) :=
            retry_loop url max_retries env remaining' (S attempt) in
          (events ++ events', result)
      end
  end.

(** [get_price(url, max_retries)]: the trace of effects and the returned
    value, [None] or a price. *)
Definition get_price (url : str) (max_retries : Z) (env : nat -> attempt_env)
  : list event * option float :=
  retry_loop url max_retries env (Z.to_nat max_retries) 0.

(** ** [update_price_history] *)

Record entry : Type := {
  price : float;
  timestamp : str
}.

(** [l[-100:]] *)
Definition last100 (l : list entry) : list entry := drop (length l - 100) l.

(** [update_price_history(product_name, price)] on the dictionary
    [self.price_history]; [now] is [datetime.now().isoformat()]. *)
Definition update_price_history (price_history : gmap str (list entry))
  (product_name : str) (p : float) (now : str) : gmap str (list entry) :=
  let h1 :=
    match price_history !! product_name with
    | Some _ => price_history
    | None => <[product_name := []]> price_history
    end in
  let e := {| price := p; timestamp := now |} in
  let h2 := alter (fun l => l ++ [e]) product_name h1 in
  match h2 !! product_name with
  | Some l =>
      if (100 <? length l)%nat then <[product_name := last100 l]> h2 else h2
  | None => h2
  end.

(** [previous_prices[-2]['price'] if len(previous_prices) >= 2 else None],
    with [previous_prices = self.price_history.get(product_name, [])]
    (lines 283-284 of [send_alert]). *)
Definition previous_price (price_history : gmap str (list entry))
  (product_name : str) : option float :=
  let previous_prices := default [] (price_history !! product_name) in
  if (2 <=? length previous_prices)%nat
  then price <$> previous_prices !! (length previous_prices - 2)%nat
  else None.

(** ** [load_config]

    What the file system and [configparser] report about the configuration
    file: whether it exists, which sections it has, and which options a
    section has. *)






(** ** [send_alert] and [run_single_check]

    The configuration is taken as [configparser] presents it: the items of
    the [products] section in order ([None] without the section) and the
    integer [check_interval] ([None] when [getint] raises [ValueError]
    because the setting is not an integer).  The conversion [float()] of the
    target price, applied to arbitrary text, is a parameter of the model
    ([None] for [ValueError]); [py_float] is its restriction to unsigned
    numerals.  The formatting of numbers in messages is not modelled:
    messages carry the numbers. *)

Record config : Type := {
  products : option (list (str * str));
  check_interval : option Z
}.

(** What happens at lines 405-407, where the delay is drawn and slept:
    the delay and the behaviour of [time.sleep] on it are inputs. *)
Inductive pause_outcome : Type :=
| NoDelay                         (* line 405 raises [OverflowError]       *)
| Slept (delay : float)           (* [time.sleep] returns                  *)
| SleepValueError (delay : float) (* [time.sleep] raises [ValueError]      *)
| SleepError (delay : float).     (* [time.sleep] raises another exception *)

(** What happens inside the [try] of [send_alert]. *)
Inductive smtp_outcome : Type :=
| Delivered                (* [sendmail] returns, nothing raises        *)
| FailedBeforeSending      (* an exception before [sendmail] returns    *)
| FailedAfterSending.      (* an exception after [sendmail] returned    *)

(** The inputs of the processing of one product: the behaviour of the
    network during [get_price], the clock, the mail server, the file system
    and the random pause. *)
Record product_env : Type := {
  fetch_env : nat -> attempt_env;
  now : str;                   (* datetime.now().isoformat()              *)
  smtp : smtp_outcome;
  save_ok : bool;              (* the history file can be written         *)
  pause : pause_outcome        (* random.uniform(..) and time.sleep(..)   *)
}.

(** The content of an alert; [alert_savings] holds the savings, their
    percentage and the previous price when the message shows them. *)
Record alert : Type := {
  alert_product : str;
  alert_price : float;
  alert_target : float;
  alert_url : str;
  alert_savings : option (float * float * float)
}.

Inductive cycle_message : Type :=
| MsgCycleStart
| MsgNoProductsSection
| MsgNoProducts
| MsgInvalidConfig (name product_config : str)
| MsgInvalidTarget (name : str)
| MsgError (name : str)
| MsgChecking (name : str)
| MsgTarget (target : float)
| MsgNoCurrentPrice (name : str)
| MsgCurrent (current : float)
| MsgTargetHit (name : str)
| MsgAbove (current target : float)
| MsgAlertSent (name : str)
| MsgAlertFailed
| MsgSaveFailed
| MsgWaiting (delay : float)
| MsgCycleDone.

Inductive cycle_event : Type :=
| Cycle (m : cycle_message)                 (* a log record              *)
| Fetch (e : event)                         (* an effect of [get_price]  *)
| Email (mail : alert)                      (* [server.sendmail]         *)
| Save (h : gmap str (list entry))          (* the history file written  *)
| Pause (seconds : float)                   (* [time.sleep] returned     *)
| Raised.                                   (* an exception leaves [run_single_check] *)

Definition float_sub : float -> float -> float := SFsub prec emax.
Definition float_div : float -> float -> float := SFdiv prec emax.

(** Lines 289-293: the savings shown when there is a previous price, it is
    not zero and it is greater than the current price. *)
Definition savings_of (previous : option float) (current : float)
  : option (float * float * float) :=
  match previous with
  | Some prev =>
      if truthy prev && ltb current prev then
        let savings := float_sub prev current in
        Some (savings, mul (float_div savings prev) (of_Z 100), prev)
      else None
  | None => None
  end.

(** [send_alert]: every exception is caught and logged. *)
Definition send_alert (price_history : gmap str (list entry))
  (product_name : str) (current_price target_price : float) (url : str)
  (outcome : smtp_outcome) : list cycle_event :=
  let mail :=
    {| alert_product := product_name;
       alert_price := current_price;
       alert_target := target_price;
       alert_url := url;
       alert_savings :=
         savings_of (previous_price price_history product_name) current_price |} in
  match outcome with
  | Delivered => [Email mail; Cycle (MsgAlertSent product_name)]
  | FailedBeforeSending => [Cycle MsgAlertFailed]
  | FailedAfterSending => [Email mail; Cycle MsgAlertFailed]
  end.

(** [product_config.split(',', 1)] when it gives two parts. *)
Fixpoint split_first_comma (s : str) : option (str * str) :=
  match s with
  | [] => None
  | c :: s' =>
      if ascii_eqb c "," then Some ([], s')
      else match split_first_comma s' with
           | Some (a, b) => Some (c :: a, b)
           | None => None
           end
  end.

(** [save_price_history]: an [IOError] is logged. *)
Definition save_price_history (price_history : gmap str (list entry))
  (writable : bool) : list cycle_event :=
  if writable then [Save price_history] else [Cycle MsgSaveFailed].

(** Lines 404-407 and the handlers of lines 409-412: the pause made after
    a product when more than one product is configured.  A [ValueError] of
    [time.sleep] (a negative delay, from a negative [check_interval]) is
    reported by the handler of the target price. *)
Definition pause_events (n_products : nat) (name : str)
  (outcome : pause_outcome) : list cycle_event :=
  if (1 <? n_products)%nat then
    match outcome with
    | NoDelay => [Cycle (MsgError name)]
    | Slept delay => [Cycle (MsgWaiting delay); Pause delay]
    | SleepValueError delay =>
        [Cycle (MsgWaiting delay); Cycle (MsgInvalidTarget name)]
    | SleepError delay => [Cycle (MsgWaiting delay); Cycle (MsgError name)]
    end
  else [].

Section PriceCheckCycle.

(** [float()] on the text of the target price. *)
Variable python_float : str -> option float.

(** The body of the loop of [run_single_check] for one product (lines
    369-412): the events and the history after it. *)
Definition process_product (n_products : nat)
  (price_history : gmap str (list entry)) (product_name product_config : str)
  (env : product_env) : list cycle_event * gmap str (list entry) :=
  match split_first_comma product_config with
  | None => ([Cycle (MsgInvalidConfig product_name product_config)],
             price_history)
  | Some (part0, part1) =>
      let url := strip part0 in
      match python_float (strip part1) with
      | None => ([Cycle (MsgInvalidTarget product_name)], price_history)
      | Some target_price =>
          let '(trace, result) := get_price url 3 (fetch_env env) in
          let start :=
            [Cycle (MsgChecking product_name); Cycle (MsgTarget target_price)]
            ++ map Fetch trace in
          match result with
          | None =>
              (start ++ [Cycle (MsgNoCurrentPrice product_name)], price_history)
          | Some current_price =>
              let h := update_price_history price_history product_name
                         current_price (now env) in
              (start
               ++ [Cycle (MsgCurrent current_price)]
               ++ (if leb current_price target_price
                   then Cycle (MsgTargetHit product_name)
                        :: send_alert h product_name current_price
                             target_price url (smtp env)
                   else [Cycle (MsgAbove current_price target_price)])
               ++ save_price_history h (save_ok env)
               ++ pause_events n_products product_name (pause env),
               h)
          end
      end
  end.

(** The loop over the products, [index] being the position of the first
    one. *)
Fixpoint process_products (n_products : nat)
  (price_history : gmap str (list entry)) (items : list (str * str))
  (env : nat -> product_env) (index : nat)
  : list cycle_event * gmap str (list entry) :=
  match items with
  | [] => ([], price_history)
  | (product_name, product_config) :: rest =>
      let '(events, h) :=
        process_product n_products price_history product_name product_config
          (env index) in
      let '(events', h') := process_products n_products h rest env (S index) in
      (events ++ events', h')
  end.

(** [run_single_check]. *)
Definition run_single_check (cfg : config)
  (price_history : gmap str (list entry)) (env : nat -> product_env)
  : list cycle_event * gmap str (list entry) :=
  match products cfg with
  | None => ([Cycle MsgCycleStart; Cycle MsgNoProductsSection], price_history)
  | Some [] => ([Cycle MsgCycleStart; Cycle MsgNoProducts], price_history)
  | Some items =>
      match check_interval cfg with
      | None => ([Cycle MsgCycleStart; Raised], price_history)
      | Some _ =>
          let '(events, h) :=
            process_products (length items) price_history items env 0 in
          (Cycle MsgCycleStart :: events ++ [Cycle MsgCycleDone], h)
      end
  end.

End PriceCheckCycle.

(** ** Notions used in the statements *)

(** Digits in a text. *)
Definition starts_with_digit (s : str) : bool :=
  match s with
  | c :: _ => is_digit c
  | [] => false
  end.

Definition has_digit (s : str) : bool := existsb is_digit s.

Definition all_digits (s : str) : Prop := Forall (fun c => is_digit c = true) s.

(** The words of a pattern, independently of the matching order. *)
Inductive lang : regex -> str -> Prop :=
| lang_digit c : is_digit c = true -> lang Digit [c]
| lang_chr a : lang (Chr a) [a]
| lang_cat r1 r2 w1 w2 :
    lang r1 w1 -> lang r2 w2 -> lang (Cat r1 r2) (w1 ++ w2)
| lang_star_nil r : lang (Star r) []
| lang_star_more r w1 w2 :
    lang r w1 -> lang (Star r) w2 -> lang (Star r) (w1 ++ w2)
| lang_plus r w1 w2 :
    lang r w1 -> lang (Star r) w2 -> lang (Plus r) (w1 ++ w2)
| lang_opt_none r : lang (Opt r) []
| lang_opt_some r w : lang r w -> lang (Opt r) w
| lang_times_0 r : lang (Times 0 r) []
| lang_times_S r n w1 w2 :
    lang r w1 -> lang (Times n r) w2 -> lang (Times (S n) r) (w1 ++ w2).

(** Patterns that match at every position (possibly the empty word). *)
Definition total (r : regex) : Prop := forall s, matches r s <> [].

(** The characters a pattern can consume. *)
Fixpoint allowed (r : regex) (c : ascii) : bool :=
  match r with
  | Digit => is_digit c
  | Chr a => ascii_eqb a c
  | Cat r1 r2 => allowed r1 c || allowed r2 c
  | Star r' | Plus r' | Opt r' | Times _ r' => allowed r' c
  end.

(** The number written by a sequence of digits, continuing from [acc]. *)
Definition number_from (acc : N) (ds : str) : N :=
  fold_left (fun a c => (10 * a + digit_value c)%N) ds acc.

Definition number (ds : str) : N := number_from 0 ds.

(** The text of comma-separated groups: [,ddd,ddd...]. *)
Definition grouped (groups : list str) : str :=
  concat (map (cons ","%char) groups).

(** Groups of exactly three digits. *)
Definition well_grouped (groups : list str) : Prop :=
  Forall (fun g => all_digits g /\ length g = 3%nat) groups.

(** The parser of the specification's remark: [parse_price] with the third,
    European pattern removed from the list. *)
Definition parse_price_without_european (price_text : str) : option float :=
  match price_text with
  | [] => None
  | _ => parse_with [pattern_standard; pattern_simple] (clean price_text)
  end.

(** The price a selector yields on a page: that of its first element whose
    text parses and validates. *)
Definition selector_yield (page : response) (selector : str) : option float :=
  match select page selector with
  | Some texts => first_valid_price texts
  | None => None
  end.

(** What the loops accept: a valid binary64 number that passes
    [validate_price]. *)
Definition validated (p : float) : Prop :=
  validate_price p = true /\ valid p = true.

(** Requests and sleeps in a trace. *)
Definition is_get (e : event) : bool :=
  match e with
  | HttpGet _ => true
  | _ => false
  end.

Definition is_sleep (e : event) : bool :=
  match e with
  | Sleep _ => true
  | _ => false
  end.

(** The events of a trace that precede its request number [i] (from 0);
    [None] when the trace has fewer requests. *)
Fixpoint before_request (i : nat) (trace : list event) : option (list event) :=
  match trace with
  | [] => None
  | e :: trace' =>
      if is_get e then
        match i with
        | O => Some []
        | S i' => option_map (cons e) (before_request i' trace')
        end
      else option_map (cons e) (before_request i trace')
  end.

(** The referrer header of lines 168-169. *)
Definition referer_events (url : str) : list event :=
  if contains (lit "amazon.com") url then [SetReferer] else [].

(** Why an attempt gives no price, in the vocabulary of the specification;
    [None] when the attempt finds a price. *)
Inductive failure : Type :=
| NoPriceFound
| Blocked
| NetworkError
| UnexpectedError.

Definition attempt_failure (env : attempt_env) : option failure :=
  match fetched env with
  | Timeout | RequestError => Some NetworkError
  | OtherError => Some UnexpectedError
  | Response r =>
      if raises_for_status r then Some NetworkError
      else if bot_detected (lower (text r)) then Some Blocked
      else match snd (try_selectors price_selectors r) with
           | Some _ => None
           | None => Some NoPriceFound
           end
  end.

(** The log message that reports a failure of attempt number [n]. *)
Definition reports (f : failure) (n : nat) (e : event) : bool :=
  match f, e with
  | NoPriceFound, Log (MsgNoPrice n' _) => (n =? n')%nat
  | Blocked, Log (MsgBotDetected n') => (n =? n')%nat
  | NetworkError, Log (MsgTimeout n') => (n =? n')%nat
  | NetworkError, Log (MsgRequestFailed n') => (n =? n')%nat
  | UnexpectedError, Log (MsgUnexpected n') => (n =? n')%nat
  | _, _ => false
  end.

(** No product has more than 100 entries. *)
Definition bounded_history (h : gmap str (list entry)) : Prop :=
  forall q l, h !! q = Some l -> (length l <= 100)%nat.

(** Floats that are neither negative nor NaN. *)
Definition nonneg (x : float) : bool :=
  match x with
  | S754_zero false | S754_finite false _ _ | S754_infinity false => true
  | _ => false
  end.


(** The events of a trace after its last request. *)
Fixpoint after_last_request (trace : list event) : list event :=
  match trace with
  | [] => []
  | e :: trace' =>
      if existsb is_get trace' then after_last_request trace'
      else if is_get e then trace' else []
  end.

(** Texts without a comma. *)
Definition no_comma (s : str) : Prop :=
  Forall (fun c => ascii_eqb c "," = false) s.

(** The history snapshots written during a cycle, in order. *)
Definition saves (events : list cycle_event) : list (gmap str (list entry)) :=
  omap (fun ev => match ev with Save h => Some h | _ => None end) events.


(** ** Sample pages and runs *)

Definition str_eqb (a b : str) : bool :=
  is_prefix a b && (length a =? length b)%nat.

(** A page with a first-selector price of 799.99 and a third-selector price
    of 899.00. *)
Definition page_two_prices : response :=
  {| status_code := 200;
     text := lit "<html><title>Amazon.com: Widget</title></html>";
     select := fun sel =>
       if str_eqb sel (lit "span.a-offscreen") then Some [lit " $799.99 "]
       else if str_eqb sel (lit "span#priceblock_ourprice")
            then Some [lit "$899.00"]
            else Some [];
     title := Some (lit "Amazon.com: Widget") |}.

(** A run: a timeout, then a block page, then a page with a price. *)
Definition env_third_time_lucky (attempt : nat) : attempt_env :=
  {| jitter := of_decimal 25 2;
     bot_wait := of_Z 12;
     fetched :=
       match attempt with
       | 0%nat => Timeout
       | 1%nat => Response {| status_code := 200;
                              text := lit "<h4>Robot Check</h4>";
                              select := fun _ => Some [];
                              title := Some (lit "Robot Check") |}
       | _ => Response page_two_prices
       end |}.

(** The text of the specification's test, as the body of a page that
    otherwise shows the prices of [page_two_prices]. *)
Definition captcha_prompt : str :=
  lit "please enter the characters you see in this image".

Definition page_with_prompt : response :=
  {| status_code := 200;
     text := captcha_prompt;
     select := select page_two_prices;
     title := Some (lit "Amazon.com") |}.

Definition env_prompt (attempt : nat) : attempt_env :=
  {| jitter := of_decimal 0 1; bot_wait := of_Z 10;
     fetched := Response page_with_prompt |}.

(** A page with one of the indicator phrases of the code, capitalised. *)
Definition page_type_the_characters : response :=
  {| status_code := 200;
     text := lit "<p>Type the characters you see in this image:</p>";
     select := select page_two_prices;
     title := Some (lit "Amazon.com") |}.

(** Pages and runs that fail in one way only: no selector matches; every
    answer is a block page; every request times out. *)
Definition page_without_price : response :=
  {| status_code := 200;
     text := lit "<html><title>Amazon.com</title></html>";
     select := fun _ => Some [];
     title := Some (lit "Amazon.com") |}.

Definition page_robot_check : response :=
  {| status_code := 200;
     text := lit "<html><h4>Robot Check</h4></html>";
     select := fun _ => Some [];
     title := Some (lit "Robot Check") |}.

Definition env_of (result : fetch_result) (attempt : nat) : attempt_env :=
  {| jitter := of_decimal 0 1; bot_wait := of_Z 10; fetched := result |}.

Definition env_no_price : nat -> attempt_env := env_of (Response page_without_price).
Definition env_blocked : nat -> attempt_env := env_of (Response page_robot_check).
Definition env_timeout : nat -> attempt_env := env_of Timeout.

Definition product_url : str := lit "https://www.amazon.com/dp/B0".

(** A configuration with two products and the inputs of a cycle in which
    every page is [page_two_prices]; the conversion of the target prices is
    [py_float]. *)
Definition two_products : config :=
  {| products :=
       Some [(lit "tv", lit " https://www.amazon.com/dp/B0 , 800");
             (lit "phone", lit "https://www.amazon.com/dp/B1,500.00")];
     check_interval := Some 30%Z |}.

Definition env_cycle (index : nat) : product_env :=
  {| fetch_env := env_of (Response page_two_prices);
     now := lit "2024-01-01T00:00:00";
     smtp := Delivered;
     save_ok := true;
     pause := Slept (of_Z 20) |}.

(** The alert for the first product of [two_products]. *)
Definition mail_tv (savings : option (float * float * float)) : alert :=
  {| alert_product := lit "tv";
     alert_price := of_decimal 79999 2;
     alert_target := of_decimal 800 0;
     alert_url := lit "https://www.amazon.com/dp/B0";
     alert_savings := savings |}.

(** * Properties *)

(** ** The conversions agree with the machine's floats

    The decimal literals on the left are read by the system's own correctly
    rounded conversion; [Prim2SF] exposes their sign, mantissa and
    exponent. *)

Example of_decimal_agrees_with_machine_floats :
  map Prim2SF [1234.56; 0.01; 50000.01; 799.99; 0.1; 1.5; 1234; 0.5;
               9007199254740993; 1e23; 5e-324; infinity]%float
  = [of_decimal 123456 2; of_decimal 1 2; of_decimal 5000001 2;
     of_decimal 79999 2; of_decimal 1 1; of_decimal 15 1; of_decimal 1234 0;
     of_decimal 5 1; of_decimal 9007199254740993 0;
     of_decimal 100000000000000000000000 0; of_decimal 5 324;
     of_decimal (10 ^ 309) 0].
Proof. vm_compute. reflexivity. Qed.

(** The delays before the second and third attempts with a jitter of 0.25,
    and before the second attempt with a jitter of -0.5. *)
Example backoff_delay_examples :
  [backoff_delay 1 (of_decimal 25 2); backoff_delay 2 (of_decimal 25 2);
   backoff_delay 1 (SFopp (of_decimal 5 1))]
  = map Prim2SF [3.75; 5.25; 3]%float.
Proof. vm_compute. reflexivity. Qed.

Example parse_price_examples :
  map (fun t => parse_price (lit t))
    ["$1,234.56"; "1234.56"; "$799.99"; ""; "Currently unavailable";
     "1.234,56"; "12,34"; "1,2345"]%string
  = [Some (of_decimal 123456 2); Some (of_decimal 123456 2);
     Some (of_decimal 79999 2); None; None;
     Some (of_decimal 1234 3); Some (of_decimal 12 0);
     Some (of_decimal 12345 0)].
Proof. vm_compute. reflexivity. Qed.

(** ** The matcher *)

Lemma ascii_eqb_eq a b : ascii_eqb a b = true <-> a = b.
Proof. unfold ascii_eqb. apply Ascii.eqb_eq. Qed.

Lemma ascii_eqb_refl a : ascii_eqb a a = true.
Proof. apply ascii_eqb_eq. reflexivity. Qed.

Section MatcherSoundness.

Variable r : regex.
Variable m : str -> list str.
Hypothesis m_sound :
  forall s rest, In rest (m s) -> exists w, s = w ++ rest /\ lang r w.

Lemma star_sound fuel : forall s rest,
  In rest (star m fuel s) -> exists w, s = w ++ rest /\ lang (Star r) w.
Proof using m_sound.
  induction fuel as [|fuel IH]; intros s rest Hin; simpl in Hin.
  - destruct Hin as [<-|[]]. exists []. split; [reflexivity|constructor].
  - apply in_app_iff in Hin. destruct Hin as [Hin|[<-|[]]].
    + apply in_flat_map in Hin. destruct Hin as (s' & Hs' & Hin).
      destruct (length s' <? length s)%nat; [|destruct Hin].
      apply m_sound in Hs'. destruct Hs' as (w1 & -> & Hw1).
      apply IH in Hin. destruct Hin as (w2 & -> & Hw2).
      exists (w1 ++ w2). split; [apply app_assoc|]. now constructor.
    + exists []. split; [reflexivity|constructor].
Qed.

Lemma times_sound n : forall s rest,
  In rest (times m n s) -> exists w, s = w ++ rest /\ lang (Times n r) w.
Proof using m_sound.
  induction n as [|n IH]; intros s rest Hin; simpl in Hin.
  - destruct Hin as [<-|[]]. exists []. split; [reflexivity|constructor].
  - apply in_flat_map in Hin. destruct Hin as (s' & Hs' & Hin).
    apply m_sound in Hs'. destruct Hs' as (w1 & -> & Hw1).
    apply IH in Hin. destruct Hin as (w2 & -> & Hw2).
    exists (w1 ++ w2). split; [apply app_assoc|]. now constructor.
Qed.

End MatcherSoundness.

(** Every remainder listed by the matcher is what is left of the text after
    a word of the pattern. *)
Lemma matches_sound r : forall s rest,
  In rest (matches r s) -> exists w, s = w ++ rest /\ lang r w.
Proof.
  induction r as [|a|r1 IH1 r2 IH2|r IH|r IH|r IH|n r IH];
    intros s rest Hin; simpl in Hin.
  - destruct s as [|c s]; [destruct Hin|].
    destruct (is_digit c) eqn:Hc; [|destruct Hin].
    destruct Hin as [<-|[]]. exists [c]. split; [reflexivity|now constructor].
  - destruct s as [|c s]; [destruct Hin|].
    destruct (ascii_eqb a c) eqn:Hc; [|destruct Hin].
    apply ascii_eqb_eq in Hc. subst c.
    destruct Hin as [<-|[]]. exists [a]. split; [reflexivity|constructor].
  - apply in_flat_map in Hin. destruct Hin as (s' & Hs' & Hin).
    apply IH1 in Hs'. destruct Hs' as (w1 & -> & Hw1).
    apply IH2 in Hin. destruct Hin as (w2 & -> & Hw2).
    exists (w1 ++ w2). split; [apply app_assoc|]. now constructor.
  - eapply star_sound; eauto.
  - apply in_flat_map in Hin. destruct Hin as (s' & Hs' & Hin).
    apply IH in Hs'. destruct Hs' as (w1 & -> & Hw1).
    eapply star_sound in Hin; eauto. destruct Hin as (w2 & -> & Hw2).
    exists (w1 ++ w2). split; [apply app_assoc|]. now constructor.
  - apply in_app_iff in Hin. destruct Hin as [Hin|[<-|[]]].
    + apply IH in Hin. destruct Hin as (w & -> & Hw).
      exists w. split; [reflexivity|now constructor].
    + exists []. split; [reflexivity|constructor].
  - eapply times_sound; eauto.
Qed.

(** The text returned by a successful match at the start of [s]. *)
Lemma matched_text (w rest : str) :
  take (length (w ++ rest) - length rest) (w ++ rest) = w.
Proof.
  rewrite length_app, Nat.add_sub. apply take_app_length.
Qed.

Lemma star_not_nil m fuel s : star m fuel s <> [].
Proof. destruct fuel; simpl; [discriminate|]. now destruct (flat_map _ _). Qed.

Lemma total_star r : total (Star r).
Proof. intros s. apply star_not_nil. Qed.

Lemma total_opt r : total (Opt r).
Proof. intros s. simpl. now destruct (matches r s). Qed.

Lemma cat_not_nil r1 r2 s :
  matches r1 s <> [] -> total r2 -> matches (Cat r1 r2) s <> [].
Proof.
  intros H1 H2. simpl. destruct (matches r1 s) as [|x l]; [congruence|].
  simpl. specialize (H2 x). now destruct (matches r2 x).
Qed.

Lemma total_cat r1 r2 : total r1 -> total r2 -> total (Cat r1 r2).
Proof. intros H1 H2 s. now apply cat_not_nil. Qed.

Lemma digits1_nil s : starts_with_digit s = false -> matches digits1 s = [].
Proof.
  intros H. destruct s as [|c s]; [reflexivity|]. simpl in *. now rewrite H.
Qed.

Lemma digits1_not_nil s :
  starts_with_digit s = true -> matches digits1 s <> [].
Proof.
  intros H. destruct s as [|c s]; [discriminate|]. simpl in *. rewrite H.
  simpl. rewrite app_nil_r. apply star_not_nil.
Qed.

Lemma cat_digits1_nil r s :
  starts_with_digit s = false -> matches (Cat digits1 r) s = [].
Proof.
  intros H.
  change (matches (Cat digits1 r) s) with (flat_map (matches r) (matches digits1 s)).
  now rewrite digits1_nil.
Qed.

(** Each of the three price patterns begins with [\d+]. *)
Lemma price_pattern_needs_digit p s :
  In p price_patterns -> starts_with_digit s = false -> matches p s = [].
Proof.
  intros [<-|[<-|[<-|[]]]] H; now apply cat_digits1_nil.
Qed.

Lemma pattern_standard_matches s :
  starts_with_digit s = true -> matches pattern_standard s <> [].
Proof.
  intros H. apply cat_not_nil; [now apply digits1_not_nil|].
  apply total_cat; [apply total_star|].
  apply total_cat; [apply total_opt|apply total_star].
Qed.

Lemma re_search_no_digit p s :
  In p price_patterns -> has_digit s = false -> re_search p s = None.
Proof.
  intros Hp. induction s as [|c s IH]; intros H; simpl.
  - now rewrite (price_pattern_needs_digit p []).
  - simpl in H. apply orb_false_iff in H. destruct H as [Hc Hs].
    rewrite (price_pattern_needs_digit p (c :: s)) by (assumption || exact Hc).
    now apply IH.
Qed.

(** [re.search] skips a prefix without digits. *)
Lemma re_search_skip p pre s :
  In p price_patterns -> has_digit pre = false -> s <> [] ->
  re_search p (pre ++ s) = re_search p s.
Proof.
  intros Hp. induction pre as [|c pre IH]; intros H Hs; [reflexivity|].
  simpl in H. apply orb_false_iff in H. destruct H as [Hc Hpre].
  change ((c :: pre) ++ s) with (c :: (pre ++ s)).
  simpl re_search at 1.
  rewrite (price_pattern_needs_digit p (c :: pre ++ s)) by (assumption || exact Hc).
  now apply IH.
Qed.

Lemma first_match_lang r s rest l :
  matches r s = rest :: l -> lang r (take (length s - length rest) s).
Proof.
  intros Hm.
  destruct (matches_sound r s rest) as (w & Hw & Hl); [rewrite Hm; now left|].
  subst s. now rewrite matched_text.
Qed.

(** Where it matches, [re.search] returns a word of the pattern. *)
Lemma re_search_lang r : forall s g, re_search r s = Some g -> lang r g.
Proof.
  induction s as [|c s IH]; intros g H; cbn [re_search] in H.
  - destruct (matches r []) as [|rest l] eqn:Hm; [discriminate|].
    injection H as <-. exact (first_match_lang r [] rest l Hm).
  - destruct (matches r (c :: s)) as [|rest l] eqn:Hm; [now apply IH|].
    injection H as <-. exact (first_match_lang r (c :: s) rest l Hm).
Qed.

Lemma re_search_standard_some s :
  has_digit s = true -> exists g, re_search pattern_standard s = Some g.
Proof.
  induction s as [|c s IH]; intros H; [discriminate|].
  simpl in H. cbn [re_search].
  destruct (matches pattern_standard (c :: s)) as [|rest l] eqn:Hm;
    [|eexists; reflexivity].
  destruct (is_digit c) eqn:Hc.
  - exfalso. now apply (pattern_standard_matches (c :: s)).
  - now apply IH.
Qed.

(** ** Words of the price patterns and their conversion *)

Lemma lang_allowed r w : lang r w -> Forall (fun c => allowed r c = true) w.
Proof.
  induction 1; simpl in *;
    repeat match goal with
    | |- Forall _ [] => constructor
    | |- Forall _ [_] => constructor; [|constructor]
    | |- Forall _ (_ ++ _) => apply Forall_app; split
    end; auto using ascii_eqb_refl.
  - eapply Forall_impl; [exact IHlang1|]. simpl. intros c ->. reflexivity.
  - eapply Forall_impl; [exact IHlang2|]. simpl. intros c ->. apply orb_true_r.
Qed.

Lemma lang_cat_inv r1 r2 w :
  lang (Cat r1 r2) w -> exists w1 w2, w = w1 ++ w2 /\ lang r1 w1 /\ lang r2 w2.
Proof. inversion 1; subst; eauto. Qed.

Lemma lang_digits1_inv w : lang digits1 w -> w <> [] /\ all_digits w.
Proof.
  intros H. split; [|exact (lang_allowed _ _ H)].
  inversion H as [| | | | |r w1 w2 H1 H2| | | |]; subst.
  inversion H1; subst. discriminate.
Qed.

Lemma lang_opt_dot_inv w : lang (Opt (Chr ".")) w -> w = [] \/ w = ["."%char].
Proof.
  inversion 1 as [| | | | | | |r w' H1| |]; subst; [now left|].
  inversion H1; subst. now right.
Qed.

Lemma digit_not_comma c : is_digit c = true -> ascii_eqb c "," = false.
Proof.
  intros H. destruct (ascii_eqb c ",") eqn:E; [|reflexivity].
  apply ascii_eqb_eq in E. subst c. discriminate.
Qed.

Lemma digit_not_dot c : is_digit c = true -> ascii_eqb c "." = false.
Proof.
  intros H. destruct (ascii_eqb c ".") eqn:E; [|reflexivity].
  apply ascii_eqb_eq in E. subst c. discriminate.
Qed.

Lemma remove_commas_app a b :
  remove_commas (a ++ b) = remove_commas a ++ remove_commas b.
Proof. apply List.filter_app. Qed.

Lemma remove_commas_digits ds : all_digits ds -> remove_commas ds = ds.
Proof.
  induction 1 as [|c ds Hc _ IH]; [reflexivity|].
  simpl. rewrite (digit_not_comma c Hc). simpl. now rewrite IH.
Qed.

(** Removing the commas of a word made of digits and commas leaves digits. *)
Lemma remove_commas_groups w :
  Forall (fun c => ascii_eqb "," c || is_digit c = true) w ->
  all_digits (remove_commas w).
Proof.
  induction 1 as [|c w Hc _ IH]; [constructor|].
  simpl. destruct (ascii_eqb c ",") eqn:E; simpl; [exact IH|].
  constructor; [|exact IH].
  apply orb_true_iff in Hc. destruct Hc as [Hc|Hc]; [|exact Hc].
  apply ascii_eqb_eq in Hc. subst c. discriminate.
Qed.

Lemma number_from_app acc a b :
  number_from acc (a ++ b) = number_from (number_from acc a) b.
Proof. apply fold_left_app. Qed.

Lemma read_digits_all ds : forall acc n rest,
  all_digits ds -> starts_with_digit rest = false ->
  read_digits acc n (ds ++ rest) = (number_from acc ds, (n + length ds)%nat, rest).
Proof.
  induction ds as [|c ds IH]; intros acc n rest Hds Hrest.
  - simpl. rewrite Nat.add_0_r. destruct rest as [|c rest]; [reflexivity|].
    simpl in *. now rewrite Hrest.
  - inversion Hds as [|? ? Hc Hds']; subst. simpl. rewrite Hc.
    rewrite IH by assumption. f_equal. f_equal. lia.
Qed.

(** [float] of an integer numeral. *)
Lemma py_float_integer ds :
  all_digits ds -> ds <> [] ->
  py_float ds = Some (of_decimal (number ds) 0).
Proof.
  intros Hds Hne. unfold py_float.
  rewrite <- (app_nil_r ds) at 1.
  rewrite read_digits_all by (assumption || reflexivity).
  destruct ds; [congruence|]. reflexivity.
Qed.

(** [float] of a numeral with a decimal point. *)
Lemma py_float_decimal ds fs :
  all_digits ds -> ds <> [] -> all_digits fs ->
  py_float (ds ++ "."%char :: fs)
  = Some (of_decimal (number (ds ++ fs)) (length fs)).
Proof.
  intros Hds Hne Hfs. unfold py_float.
  rewrite read_digits_all by (assumption || reflexivity).
  rewrite ascii_eqb_refl.
  rewrite <- (app_nil_r fs) at 1.
  rewrite read_digits_all by (assumption || reflexivity).
  unfold number. rewrite number_from_app.
  destruct ds; [congruence|]. reflexivity.
Qed.

(** The text matched by the standard pattern, once its commas are removed,
    is a numeral [d+], [d+.] or [d+.d+]. *)
Lemma standard_word_shape g :
  lang pattern_standard g ->
  exists ds dot fs,
    remove_commas g = ds ++ dot ++ fs /\
    all_digits ds /\ ds <> [] /\ all_digits fs /\
    (dot = [] \/ dot = ["."%char]).
Proof.
  intros H.
  apply lang_cat_inv in H. destruct H as (w1 & g1 & -> & H1 & H).
  apply lang_cat_inv in H. destruct H as (w2 & g2 & -> & H2 & H).
  apply lang_cat_inv in H. destruct H as (w3 & w4 & -> & H3 & H4).
  apply lang_digits1_inv in H1. destruct H1 as [Hne H1].
  apply lang_allowed in H2. apply remove_commas_groups in H2.
  apply lang_opt_dot_inv in H3.
  apply lang_allowed in H4. change (all_digits w4) in H4.
  exists (w1 ++ remove_commas w2), w3, w4.
  repeat split; try assumption.
  - rewrite !remove_commas_app, (remove_commas_digits w1 H1),
      (remove_commas_digits w4 H4).
    destruct H3 as [->| ->]; simpl; now rewrite <- app_assoc.
  - apply Forall_app. now split.
  - destruct w1; [congruence|discriminate].
Qed.

Lemma numeral_converts ds dot fs :
  all_digits ds -> ds <> [] -> all_digits fs ->
  dot = [] \/ dot = ["."%char] ->
  exists p, py_float (ds ++ dot ++ fs) = Some p.
Proof.
  intros Hds Hne Hfs [->| ->]; simpl.
  - rewrite py_float_integer; [eauto| |].
    + apply Forall_app. now split.
    + destruct ds; [congruence|discriminate].
  - rewrite py_float_decimal by assumption. eauto.
Qed.

(** [float] never fails on the text matched by the standard pattern. *)
Lemma standard_word_converts g :
  lang pattern_standard g -> exists p, py_float (remove_commas g) = Some p.
Proof.
  intros H. apply standard_word_shape in H.
  destruct H as (ds & dot & fs & -> & Hds & Hne & Hfs & Hdot).
  now apply numeral_converts.
Qed.

(** The texts handed to [float] consist of digits and dots only. *)
Lemma price_str_alphabet pattern cleaned group1 :
  In pattern price_patterns ->
  re_search pattern cleaned = Some group1 ->
  Forall (fun c => is_digit c = true \/ c = "."%char) (remove_commas group1).
Proof.
  intros Hp H. apply re_search_lang in H. apply lang_allowed in H.
  assert (Ha : Forall (fun c => is_digit c = true \/ c = "."%char
                                \/ c = ","%char) group1).
  { eapply Forall_impl; [exact H|]. simpl. intros c Hc.
    destruct Hp as [<-|[<-|[<-|[]]]]; simpl in Hc;
      repeat (apply orb_true_iff in Hc; destruct Hc as [Hc|Hc]);
      try (now left);
      apply ascii_eqb_eq in Hc; subst c; auto. }
  clear H. induction Ha as [|c w Hc _ IH]; [constructor|].
  simpl. destruct (ascii_eqb c ",") eqn:E; simpl; [exact IH|].
  constructor; [|exact IH].
  destruct Hc as [Hc|[Hc|Hc]]; auto.
  subst c. discriminate.
Qed.

(** ** [parse_price] succeeds exactly on the texts with a digit *)

Lemma has_digit_clean s : has_digit (clean s) = has_digit s.
Proof.
  induction s as [|c s IH]; [reflexivity|].
  simpl. unfold kept. destruct (is_digit c) eqn:Hc; simpl.
  - now rewrite Hc.
  - destruct (ascii_eqb c "." || ascii_eqb c "," || ascii_eqb c "-");
      simpl; [rewrite Hc|]; exact IH.
Qed.

Lemma parse_with_no_digit patterns cleaned :
  incl patterns price_patterns -> has_digit cleaned = false ->
  parse_with patterns cleaned = None.
Proof.
  induction patterns as [|p ps IH]; intros Hincl H; [reflexivity|].
  simpl. rewrite re_search_no_digit; [|apply Hincl; now left|assumption].
  apply IH; [|assumption]. intros x Hx. apply Hincl. now right.
Qed.

(** With a digit in the cleaned text the first pattern decides. *)
Lemma parse_with_standard rest cleaned :
  has_digit cleaned = true ->
  exists g p,
    re_search pattern_standard cleaned = Some g /\
    py_float (remove_commas g) = Some p /\
    parse_with (pattern_standard :: rest) cleaned = Some p.
Proof.
  intros H. destruct (re_search_standard_some cleaned H) as (g & Hg).
  destruct (standard_word_converts g (re_search_lang _ _ _ Hg)) as (p & Hp).
  exists g, p. repeat split; try assumption.
  simpl. now rewrite Hg, Hp.
Qed.

(** ** The preferred match on well-formed grouped prices *)

Lemma star_stop m fuel s : m s = [] -> star m fuel s = [s].
Proof. intros H. destruct fuel; simpl; [reflexivity|]. now rewrite H. Qed.

Lemma star_step m fuel s s' :
  m s = [s'] -> (length s' < length s)%nat ->
  star m (S fuel) s = star m fuel s' ++ [s].
Proof.
  intros H Hlen. cbn [star]. rewrite H. cbn [flat_map].
  rewrite (proj2 (Nat.ltb_lt _ _) Hlen). now rewrite app_nil_r.
Qed.

Lemma matches_digit_stop rest :
  starts_with_digit rest = false -> matches Digit rest = [].
Proof.
  intros H. destruct rest as [|c rest]; [reflexivity|].
  simpl in *. now rewrite H.
Qed.

Lemma star_digits_head fuel : forall ds rest,
  all_digits ds -> starts_with_digit rest = false ->
  (length (ds ++ rest) <= fuel)%nat ->
  exists l, star (matches Digit) fuel (ds ++ rest) = rest :: l.
Proof.
  induction fuel as [|fuel IH]; intros ds rest Hds Hrest Hlen.
  - destruct ds; [|simpl in Hlen; lia]. simpl. eauto.
  - destruct ds as [|c ds].
    + rewrite star_stop by now apply matches_digit_stop. eauto.
    + inversion Hds as [|? ? Hc Hds']; subst. simpl in Hlen.
      rewrite (star_step _ fuel _ (ds ++ rest));
        [|simpl; now rewrite Hc|simpl; lia].
      destruct (IH ds rest Hds' Hrest) as (l & ->); [lia|].
      simpl. eauto.
Qed.

Lemma digits0_head ds rest :
  all_digits ds -> starts_with_digit rest = false ->
  exists l, matches digits0 (ds ++ rest) = rest :: l.
Proof. intros Hds Hrest. now apply star_digits_head. Qed.

Lemma digits1_head ds rest :
  all_digits ds -> ds <> [] -> starts_with_digit rest = false ->
  exists l, matches digits1 (ds ++ rest) = rest :: l.
Proof.
  intros Hds Hne Hrest. destruct ds as [|c ds]; [congruence|].
  inversion Hds as [|? ? Hc Hds']; subst.
  change (matches digits1 ((c :: ds) ++ rest))
    with (flat_map (fun s' => star (matches Digit) (length s') s')
            (matches Digit (c :: ds ++ rest))).
  replace (matches Digit (c :: ds ++ rest)) with [ds ++ rest]
    by (simpl; now rewrite Hc).
  cbn [flat_map]. rewrite app_nil_r. now apply star_digits_head.
Qed.

Lemma group3_match g rest :
  all_digits g -> length g = 3%nat ->
  matches group3 (","%char :: g ++ rest) = [rest].
Proof.
  intros Hg Hlen.
  destruct g as [|a [|b [|c [|d g]]]]; try discriminate.
  inversion Hg as [|? ? Ha Hg1]; subst.
  inversion Hg1 as [|? ? Hb Hg2]; subst.
  inversion Hg2 as [|? ? Hc _]; subst.
  unfold group3. cbn [matches app flat_map times].
  rewrite ascii_eqb_refl. cbn [flat_map app times matches].
  rewrite Ha. cbn [flat_map app times matches].
  rewrite Hb. cbn [flat_map app times matches].
  rewrite Hc. reflexivity.
Qed.

Lemma length_grouped_cons g groups rest :
  length (grouped (g :: groups) ++ rest)
  = S (length g + length (grouped groups ++ rest)).
Proof.
  unfold grouped. cbn [map concat]. rewrite <- app_assoc.
  cbn [app length]. now rewrite length_app.
Qed.

Lemma grouped_cons g groups rest :
  grouped (g :: groups) ++ rest = ","%char :: g ++ grouped groups ++ rest.
Proof. unfold grouped. cbn [map concat]. now rewrite <- app_assoc. Qed.

Lemma star_groups_head fuel : forall groups rest,
  well_grouped groups -> matches group3 rest = [] ->
  (length (grouped groups ++ rest) <= fuel)%nat ->
  exists l, star (matches group3) fuel (grouped groups ++ rest) = rest :: l.
Proof.
  induction fuel as [|fuel IH]; intros groups rest Hg Hrest Hlen.
  - destruct groups as [|g groups].
    + change (grouped [] ++ rest) with rest. cbn [star]. eauto.
    + rewrite length_grouped_cons in Hlen. lia.
  - destruct groups as [|g groups].
    + change (grouped [] ++ rest) with rest. rewrite star_stop by assumption.
      eauto.
    + inversion Hg as [|? ? [Hd H3] Hg']; subst.
      rewrite length_grouped_cons in Hlen.
      rewrite grouped_cons.
      rewrite (star_step _ fuel _ (grouped groups ++ rest));
        [|now apply group3_match|cbn [length]; rewrite (length_app g); lia].
      destruct (IH groups rest Hg' Hrest) as (l & ->); [lia|].
      simpl. eauto.
Qed.

(** On [d+(,ddd)*.d*] the standard pattern consumes the whole text. *)
Lemma standard_whole_match g0 groups frac :
  all_digits g0 -> g0 <> [] -> well_grouped groups -> all_digits frac ->
  exists l,
    matches pattern_standard (g0 ++ grouped groups ++ "."%char :: frac) = [] :: l.
Proof.
  intros H0 Hne Hg Hf.
  set (tail := Cat (Opt (Chr ".")) digits0).
  set (s1 := grouped groups ++ "."%char :: frac).
  change (matches pattern_standard (g0 ++ s1))
    with (flat_map (fun s' => flat_map (matches tail) (matches (Star group3) s'))
            (matches digits1 (g0 ++ s1))).
  destruct (digits1_head g0 s1) as (l1 & ->); auto.
  { subst s1. destruct groups; reflexivity. }
  cbn [flat_map].
  change (matches (Star group3) s1) with (star (matches group3) (length s1) s1).
  subst s1.
  destruct (star_groups_head (length (grouped groups ++ "."%char :: frac))
              groups ("."%char :: frac)) as (l2 & ->); auto.
  cbn [flat_map]. subst tail.
  change (matches (Cat (Opt (Chr ".")) digits0) ("."%char :: frac))
    with (flat_map (matches digits0)
            (matches (Chr ".") ("."%char :: frac) ++ ["."%char :: frac])).
  replace (matches (Chr ".") ("."%char :: frac)) with [frac] by reflexivity.
  cbn [app flat_map].
  destruct (digits0_head frac []) as (l3 & E); auto.
  rewrite app_nil_r in E. rewrite E. simpl. eauto.
Qed.

Lemma remove_commas_grouped groups :
  well_grouped groups -> remove_commas (grouped groups) = concat groups.
Proof.
  induction 1 as [|g groups [Hd _] _ IH]; [reflexivity|].
  unfold grouped. cbn [map concat].
  change (remove_commas (","%char :: g ++ concat (map (cons ","%char) groups))
          = g ++ concat groups).
  change (","%char :: g ++ concat (map (cons ","%char) groups))
    with ([","%char] ++ g ++ grouped groups).
  rewrite !remove_commas_app, (remove_commas_digits g Hd), IH. reflexivity.
Qed.

Lemma all_digits_concat groups : well_grouped groups -> all_digits (concat groups).
Proof.
  induction 1 as [|g groups [Hd _] _ IH]; [constructor|].
  simpl. apply Forall_app. now split.
Qed.

Lemma digit_kept c : is_digit c = true -> kept c = true.
Proof. intros H. unfold kept. now rewrite H. Qed.

Lemma clean_digits ds : all_digits ds -> clean ds = ds.
Proof.
  induction 1 as [|c ds Hc _ IH]; [reflexivity|].
  simpl. rewrite (digit_kept c Hc). now rewrite IH.
Qed.

Lemma clean_app a b : clean (a ++ b) = clean a ++ clean b.
Proof. apply List.filter_app. Qed.

Lemma clean_grouped groups : well_grouped groups -> clean (grouped groups) = grouped groups.
Proof.
  induction 1 as [|g groups [Hd _] _ IH]; [reflexivity|].
  unfold grouped. cbn [map concat]. fold (grouped groups).
  change (","%char :: g) with ([","%char] ++ g).
  rewrite <- app_assoc, !clean_app, (clean_digits g Hd), IH. reflexivity.
Qed.

Lemma re_search_whole r s l : matches r s = [] :: l -> re_search r s = Some s.
Proof.
  intros H. destruct s as [|c s]; cbn [re_search]; rewrite H.
  - reflexivity.
  - cbn [length]. rewrite Nat.sub_0_r.
    change (S (length s)) with (length (c :: s)). now rewrite take_ge.
Qed.

Lemma parse_price_clean s :
  s <> [] -> parse_price s = parse_with price_patterns (clean s).
Proof. intros H. destruct s; [congruence|reflexivity]. Qed.

Lemma has_digit_true s :
  has_digit s = true <-> exists c, In c s /\ is_digit c = true.
Proof. apply existsb_exists. Qed.

(** ** The claims about [parse_price] *)

(** C3.  A price text in thousands-grouped dot-decimal form -- a currency
    symbol (any text without digits), a first group of digits, groups of a
    comma and three digits, a dot and the fractional digits, as in
    [$1,234.56] -- parses to the float of the numeral obtained by dropping
    the symbol and the commas: the binary64 number nearest to the integer
    written by all the digits divided by ten to the number of fractional
    digits (1234.56 for the example). *)
Theorem C3_parse_grouped_price (sym g0 : str) (groups : list str) (frac : str) :
  has_digit sym = false ->
  all_digits g0 -> g0 <> [] ->
  well_grouped groups ->
  all_digits frac ->
  parse_price (sym ++ g0 ++ grouped groups ++ "."%char :: frac)
  = Some (of_decimal (number (g0 ++ concat groups ++ frac)) (length frac))
  /\ py_float (g0 ++ concat groups ++ "."%char :: frac)
     = parse_price (sym ++ g0 ++ grouped groups ++ "."%char :: frac).
Proof.
  intros Hsym H0 Hne Hg Hf.
  set (s := g0 ++ grouped groups ++ "."%char :: frac).
  assert (Hs : s <> []) by (subst s; destruct g0; [congruence|discriminate]).
  assert (Hclean : clean s = s).
  { subst s. rewrite !clean_app, (clean_digits g0 H0), (clean_grouped groups Hg).
    change ("."%char :: frac) with (["."%char] ++ frac).
    now rewrite clean_app, (clean_digits frac Hf). }
  assert (Hfloat : py_float (g0 ++ concat groups ++ "."%char :: frac)
    = Some (of_decimal (number (g0 ++ concat groups ++ frac)) (length frac))).
  { rewrite !app_assoc. rewrite py_float_decimal; auto.
    - apply Forall_app. split; [assumption|now apply all_digits_concat].
    - destruct g0; [congruence|discriminate]. }
  assert (Hparse : parse_price (sym ++ s)
    = Some (of_decimal (number (g0 ++ concat groups ++ frac)) (length frac))).
  { rewrite parse_price_clean by (destruct sym; [exact Hs|discriminate]).
    rewrite clean_app, Hclean.
    unfold price_patterns. cbn [parse_with].
    rewrite re_search_skip;
      [|now left|now rewrite has_digit_clean|exact Hs].
    destruct (standard_whole_match g0 groups frac H0 Hne Hg Hf) as (l & Hm).
    fold s in Hm. rewrite (re_search_whole _ _ _ Hm).
    replace (remove_commas s) with (g0 ++ concat groups ++ "."%char :: frac).
    - now rewrite Hfloat.
    - subst s. rewrite !remove_commas_app, (remove_commas_digits g0 H0),
        (remove_commas_grouped groups Hg).
      change ("."%char :: frac) with (["."%char] ++ frac).
      now rewrite remove_commas_app, (remove_commas_digits frac Hf). }
  split; [exact Hparse|]. now rewrite Hparse.
Qed.

(** The example of the specification: [$1,234.56] parses to the float
    1234.56. *)
Lemma C3_witness :
  parse_price (lit "$1,234.56") = Some (of_decimal 123456 2).
Proof.
  refine (proj1 (C3_parse_grouped_price (lit "$") (lit "1") [lit "234"] (lit "56")
                   _ _ _ _ _)).
  - reflexivity.
  - repeat constructor.
  - discriminate.
  - repeat constructor.
  - repeat constructor.
Defined.

(** C9.  [parse_price] returns a number exactly for the texts that contain
    a digit: any text with a digit parses to some float, any text without
    one gives [None]. *)
Theorem C9_parse_iff_has_digit (price_text : str) :
  (exists p, parse_price price_text = Some p)
  <-> (exists c, In c price_text /\ is_digit c = true).
Proof.
  rewrite <- has_digit_true. rewrite <- has_digit_clean.
  destruct price_text as [|c0 s0].
  - split; [intros [p H]; discriminate|discriminate].
  - rewrite parse_price_clean by discriminate.
    destruct (has_digit (clean (c0 :: s0))) eqn:Hd.
    + split; [reflexivity|intros _].
      destruct (parse_with_standard [pattern_simple; pattern_european]
                  (clean (c0 :: s0)) Hd) as (g & p & _ & _ & H).
      exists p. exact H.
    + rewrite parse_with_no_digit by (auto using incl_refl).
      split; [intros [p H]; discriminate|discriminate].
Qed.

(** C6.  The European pattern is never the one that decides: on every text
    [parse_price] equals the parser without the third pattern, and whenever
    the third pattern matches the cleaned text, the first pattern matches
    too and its text converts, giving the result. *)
Theorem C6_european_pattern_unreachable (price_text : str) :
  parse_price price_text = parse_price_without_european price_text
  /\ forall g3, re_search pattern_european (clean price_text) = Some g3 ->
       exists g1 p,
         re_search pattern_standard (clean price_text) = Some g1 /\
         py_float (remove_commas g1) = Some p /\
         parse_price price_text = Some p.
Proof.
  destruct (has_digit (clean price_text)) eqn:Hd.
  - assert (Hne : price_text <> []) by (destruct price_text; discriminate).
    destruct (parse_with_standard [pattern_simple; pattern_european]
                (clean price_text) Hd) as (g & p & Hg & Hp & H).
    destruct (parse_with_standard [pattern_simple]
                (clean price_text) Hd) as (g' & p' & Hg' & Hp' & H').
    split.
    + rewrite parse_price_clean by assumption.
      destruct price_text; [congruence|].
      unfold parse_price_without_european, price_patterns.
      rewrite H, H'. congruence.
    + intros g3 _. exists g, p. rewrite parse_price_clean by assumption.
      auto.
  - split.
    + destruct price_text; [reflexivity|].
      unfold parse_price, parse_price_without_european.
      rewrite !parse_with_no_digit; auto using incl_refl.
      intros x [<-|[<-|[]]]; simpl; auto.
    + intros g3 H. rewrite re_search_no_digit in H; [discriminate| |assumption].
      right; right; now left.
Qed.

(** ** Validity of rounded results *)

Lemma fexp_eq (e : Z) : fexp prec emax e = Z.max (e - 53) (-1074).
Proof. reflexivity. Qed.

Lemma Zdigits2_log2 (m : Z) : (0 < m)%Z -> Zdigits2 m = (Z.log2 m + 1)%Z.
Proof.
  destruct m as [|p|p]; try lia. intros _. cbn [Zdigits2].
  destruct p as [p|p|]; cbn [digits2_pos Z.log2]; [| |reflexivity];
    rewrite Pos2Z.inj_succ; f_equal; f_equal;
    induction p as [p IH|p IH|]; cbn [digits2_pos Pos.size]; congruence.
Qed.

Lemma shr_1_m (mrs : shr_record) :
  (0 <= shr_m mrs)%Z -> shr_m (shr_1 mrs) = Z.shiftr (shr_m mrs) 1.
Proof.
  destruct mrs as [m r s]. cbn [shr_m]. intros Hm.
  rewrite <- Z.div2_spec.
  destruct m as [|[p|p|]|p]; try reflexivity; lia.
Qed.

Lemma iter_shr_1_m (p : positive) : forall mrs,
  (0 <= shr_m mrs)%Z ->
  shr_m (SpecFloat.iter_pos shr_1 p mrs) = Z.shiftr (shr_m mrs) (Zpos p).
Proof.
  induction p as [p IH|p IH|]; intros mrs Hm; cbn [SpecFloat.iter_pos].
  - assert (H1 : (0 <= shr_m (shr_1 mrs))%Z)
      by (rewrite shr_1_m by assumption; now apply Z.shiftr_nonneg).
    assert (H2 : (0 <= shr_m (SpecFloat.iter_pos shr_1 p (shr_1 mrs)))%Z)
      by (rewrite IH by assumption; now apply Z.shiftr_nonneg).
    rewrite IH, IH, shr_1_m by assumption.
    rewrite !Z.shiftr_shiftr by lia. f_equal. lia.
  - assert (H2 : (0 <= shr_m (SpecFloat.iter_pos shr_1 p mrs))%Z)
      by (rewrite IH by assumption; now apply Z.shiftr_nonneg).
    rewrite IH, IH by assumption.
    rewrite !Z.shiftr_shiftr by lia. f_equal. lia.
  - now apply shr_1_m.
Qed.

Lemma shr_record_of_loc_m m l : shr_m (shr_record_of_loc m l) = m.
Proof. now destruct l as [|[]]. Qed.

(** One shift to the target exponent: a mantissa with enough digits comes
    out canonical. *)
Lemma shr_fexp_canonical (m e : Z) (l : location) :
  (0 <= m)%Z -> (e <= fexp prec emax (Zdigits2 m + e))%Z ->
  let '(mrs, e') := shr_fexp prec emax m e l in
  (0 <= shr_m mrs <= m)%Z
  /\ ((0 < shr_m mrs)%Z -> fexp prec emax (Zdigits2 (shr_m mrs) + e') = e')
  /\ (shr_m mrs = 0%Z -> e' = (-1074)%Z).
Proof.
  intros Hm He. unfold shr_fexp, shr.
  remember (fexp prec emax (Zdigits2 m + e) - e)%Z as n eqn:En.
  assert (Hn : (0 <= n)%Z) by lia.
  assert (Hzero : m = 0%Z -> (e + n = -1074)%Z).
  { intros ->. cbn [Zdigits2] in *. rewrite fexp_eq in *. lia. }
  destruct n as [|p|p]; [| |lia].
  - rewrite shr_record_of_loc_m. repeat split; lia.
  - rewrite iter_shr_1_m by (now rewrite shr_record_of_loc_m).
    rewrite shr_record_of_loc_m.
    assert (Hs : (0 <= Z.shiftr m (Zpos p))%Z) by now apply Z.shiftr_nonneg.
    assert (Hle : (Z.shiftr m (Zpos p) <= m)%Z).
    { rewrite Z.shiftr_div_pow2 by lia.
      assert (0 < 2 ^ Zpos p)%Z by (apply Z.pow_pos_nonneg; lia).
      apply Z.div_le_upper_bound; [assumption|]. nia. }
    split; [lia|].
    assert (Hmpos : (0 < Z.shiftr m (Zpos p))%Z -> (0 < m)%Z) by lia.
    split.
    + intros Hpos. specialize (Hmpos Hpos).
      rewrite (Zdigits2_log2 _ Hpos), Z.log2_shiftr by assumption.
      rewrite (Zdigits2_log2 m Hmpos) in En.
      assert (Hlog : (Zpos p <= Z.log2 m)%Z).
      { destruct (Z.le_gt_cases (Zpos p) (Z.log2 m)) as [H|H]; [exact H|].
        exfalso. rewrite Z.shiftr_eq_0 in Hpos; lia. }
      rewrite fexp_eq in *. lia.
    + intros H0.
      apply Z.shiftr_eq_0_iff in H0. destruct H0 as [H0|[Hmp H0]]; [auto|].
      rewrite (Zdigits2_log2 m Hmp) in En.
      rewrite fexp_eq in *. lia.
Qed.

Lemma shr_fexp_bounds (m e : Z) (l : location) :
  (0 <= m)%Z -> (0 <= shr_m (fst (shr_fexp prec emax m e l)) <= m)%Z.
Proof.
  intros Hm. unfold shr_fexp, shr.
  destruct (fexp prec emax (Zdigits2 m + e) - e)%Z as [|p|p]; cbn [fst];
    rewrite ?shr_record_of_loc_m; try lia.
  rewrite iter_shr_1_m by (now rewrite shr_record_of_loc_m).
  rewrite shr_record_of_loc_m.
  assert (Hs : (0 <= Z.shiftr m (Zpos p))%Z) by now apply Z.shiftr_nonneg.
  split; [exact Hs|].
  rewrite Z.shiftr_div_pow2 by lia.
  assert (0 < 2 ^ Zpos p)%Z by (apply Z.pow_pos_nonneg; lia).
  apply Z.div_le_upper_bound; [assumption|]. nia.
Qed.

Lemma round_nearest_even_bounds (m : Z) (l : location) :
  (m <= round_nearest_even m l <= m + 1)%Z.
Proof.
  unfold round_nearest_even.
  destruct l as [|[]]; try lia. destruct (Z.even m); lia.
Qed.

Lemma Zdigits2_mono (a b : Z) :
  (0 < a <= b)%Z -> (Zdigits2 a <= Zdigits2 b)%Z.
Proof.
  intros H. rewrite !Zdigits2_log2 by lia.
  assert (Z.log2 a <= Z.log2 b)%Z by (apply Z.log2_le_mono; lia). lia.
Qed.

(** Rounding a non-negative mantissa with enough digits gives a valid
    binary64 number. *)
Lemma binary_round_aux_valid (sx : bool) (mx ex : Z) (lx : location) :
  (0 <= mx)%Z -> (ex <= fexp prec emax (Zdigits2 mx + ex))%Z ->
  valid_binary prec emax (binary_round_aux prec emax sx mx ex lx) = true.
Proof.
  intros Hm He. unfold binary_round_aux.
  pose proof (shr_fexp_canonical mx ex lx Hm He) as H1.
  destruct (shr_fexp prec emax mx ex lx) as [mrs1 e1].
  destruct H1 as (Hb1 & Hc1 & Hz1).
  pose proof (round_nearest_even_bounds (shr_m mrs1) (loc_of_shr_record mrs1))
    as Hr.
  set (m2 := round_nearest_even (shr_m mrs1) (loc_of_shr_record mrs1)) in *.
  destruct (Z.eq_dec m2 0%Z) as [H0|H0].
  - pose proof (shr_fexp_bounds m2 e1 loc_Exact) as Hb.
    destruct (shr_fexp prec emax m2 e1 loc_Exact) as [mrs2 e2].
    cbn [fst] in Hb. replace (shr_m mrs2) with 0%Z by lia. reflexivity.
  - assert (He1 : (e1 <= fexp prec emax (Zdigits2 m2 + e1))%Z).
    { destruct (Z.eq_dec (shr_m mrs1) 0%Z) as [Hz|Hz].
      - rewrite (Hz1 Hz). rewrite fexp_eq. lia.
      - rewrite <- (Hc1 ltac:(lia)) at 1.
        pose proof (Zdigits2_mono (shr_m mrs1) m2 ltac:(lia)).
        rewrite !fexp_eq. lia. }
    pose proof (shr_fexp_canonical m2 e1 loc_Exact ltac:(lia) He1) as H2.
    destruct (shr_fexp prec emax m2 e1 loc_Exact) as [mrs2 e2].
    destruct H2 as (Hb2 & Hc2 & _).
    destruct (shr_m mrs2) as [|m|m] eqn:Em; try reflexivity.
    destruct (e2 <=? emax - prec)%Z eqn:Ee; [|reflexivity].
    cbn [valid_binary]. unfold bounded, canonical_mantissa.
    rewrite Ee, andb_true_r. apply Z.eqb_eq.
    apply (Hc2 ltac:(lia)).
Qed.

Lemma log2_div_lower (a b : Z) :
  (0 < b <= a)%Z -> (Z.log2 a - Z.log2 b - 1 <= Z.log2 (a / b))%Z.
Proof.
  intros [Hb Hab].
  pose proof (Z.log2_nonneg (a / b)) as Hnn.
  pose proof (Z.log2_nonneg b) as Hlb.
  destruct (Z.le_gt_cases (Z.log2 a) (Z.log2 b)) as [Hle|Hgt]; [lia|].
  pose proof (Z.log2_spec a ltac:(lia)) as [Ha _].
  pose proof (Z.log2_spec b Hb) as [_ Hb'].
  assert (Hp : (0 < 2 ^ Z.succ (Z.log2 b))%Z) by (apply Z.pow_pos_nonneg; lia).
  assert (H1 : (2 ^ Z.log2 a / 2 ^ Z.succ (Z.log2 b) <= a / b)%Z).
  { transitivity (2 ^ Z.log2 a / b)%Z.
    - apply Z.div_le_compat_l; [apply Z.pow_nonneg; lia|lia].
    - apply Z.div_le_mono; lia. }
  rewrite <- Z.pow_sub_r in H1 by lia.
  apply Z.log2_le_mono in H1. rewrite Z.log2_pow2 in H1 by lia. lia.
Qed.

(** The quotient computed for a division comes with enough digits. *)
Lemma SFdiv_core_digits (m1 m2 : positive) :
  let '(q, e', l) := SFdiv_core_binary prec emax (Zpos m1) 0 (Zpos m2) 0 in
  (0 <= q)%Z /\ (e' <= fexp prec emax (Zdigits2 q + e'))%Z.
Proof.
  unfold SFdiv_core_binary.
  rewrite !Zdigits2_log2 by lia.
  set (e' := Z.min (fexp prec emax (Z.log2 (Zpos m1) + 1 + 0
                                    - (Z.log2 (Zpos m2) + 1 + 0))) (0 - 0)).
  assert (He' : (e' <= 0)%Z) by (subst e'; lia).
  set (m' := match (0 - 0 - e')%Z with
             | Zpos _ => Z.shiftl (Zpos m1) (0 - 0 - e')
             | 0%Z => Zpos m1
             | Zneg _ => 0%Z
             end).
  assert (Hm' : m' = Z.shiftl (Zpos m1) (- e')).
  { subst m'. replace (0 - 0 - e')%Z with (- e')%Z by lia.
    destruct (- e')%Z eqn:E; try reflexivity; lia. }
  assert (Hpos : (0 < m')%Z).
  { rewrite Hm', Z.shiftl_mul_pow2 by lia.
    assert (0 < 2 ^ (- e'))%Z by (apply Z.pow_pos_nonneg; lia). nia. }
  assert (Hlog : Z.log2 m' = (Z.log2 (Zpos m1) - e')%Z).
  { rewrite Hm', Z.log2_shiftl by lia. lia. }
  destruct (Z.div_eucl m' (Zpos m2)) as [q r] eqn:E.
  assert (Hq : q = (m' / Zpos m2)%Z) by (unfold Z.div; now rewrite E).
  assert (Hq0 : (0 <= q)%Z) by (rewrite Hq; apply Z.div_pos; lia).
  split; [exact Hq0|].
  destruct (Z.eq_dec q 0%Z) as [Hz|Hz].
  - rewrite Hz. cbn [Zdigits2].
    assert (Hlt : (m' < Zpos m2)%Z).
    { destruct (Z.lt_ge_cases m' (Zpos m2)) as [H|H]; [exact H|].
      assert (1 <= m' / Zpos m2)%Z by (apply Z.div_le_lower_bound; lia).
      lia. }
    assert (Z.log2 m' <= Z.log2 (Zpos m2))%Z by (apply Z.log2_le_mono; lia).
    subst e'. rewrite !fexp_eq in *. lia.
  - assert (Hge : (Zpos m2 <= m')%Z).
    { destruct (Z.lt_ge_cases m' (Zpos m2)) as [H|H]; [|exact H].
      rewrite Z.div_small in Hq by lia. lia. }
    pose proof (log2_div_lower m' (Zpos m2) ltac:(lia)) as Hl.
    rewrite <- Hq in Hl.
    rewrite Zdigits2_log2 by lia.
    subst e'. rewrite !fexp_eq in *. lia.
Qed.

(** Every float obtained from a decimal numeral is a valid binary64
    number. *)
Lemma of_decimal_valid (n : N) (k : nat) : valid (of_decimal n k) = true.
Proof.
  destruct n as [|p]; [reflexivity|].
  unfold valid, of_decimal, SFdiv.
  pose proof (SFdiv_core_digits p (pow10 k)) as H.
  destruct (SFdiv_core_binary prec emax (Zpos p) 0 (Zpos (pow10 k)) 0)
    as [[q e'] l].
  destruct H as [Hq He]. now apply binary_round_aux_valid.
Qed.

Lemma py_float_valid (s : str) (p : float) :
  py_float s = Some p -> valid p = true.
Proof.
  unfold py_float.
  destruct (read_digits 0 0 s) as [[ip ni] s1].
  destruct s1 as [|c s2].
  - destruct (0 <? ni)%nat; [|discriminate].
    intros [= <-]. apply of_decimal_valid.
  - destruct (ascii_eqb c "."); [|discriminate].
    destruct (read_digits ip 0 s2) as [[n nf] s3].
    destruct s3; [|discriminate].
    destruct (0 <? ni + nf)%nat; [|discriminate].
    intros [= <-]. apply of_decimal_valid.
Qed.

Lemma parse_with_valid (patterns : list regex) (cleaned : str) (p : float) :
  parse_with patterns cleaned = Some p -> valid p = true.
Proof.
  induction patterns as [|r rest IH]; [discriminate|]. simpl.
  destruct (re_search r cleaned) as [g|]; [|exact IH].
  destruct (py_float (remove_commas g)) as [q|] eqn:E; [|exact IH].
  intros [= <-]. now apply py_float_valid in E.
Qed.

Lemma parse_price_valid (price_text : str) (p : float) :
  parse_price price_text = Some p -> valid p = true.
Proof.
  destruct price_text; [discriminate|]. apply parse_with_valid.
Qed.

(** ** [validate_price] and the interval [0.01, 50000] *)

Lemma digits2_pos_bounds (m : positive) :
  (2 ^ (Zpos (digits2_pos m) - 1) <= Zpos m < 2 ^ Zpos (digits2_pos m))%Z.
Proof.
  induction m as [m IH|m IH|]; cbn [digits2_pos].
  - rewrite Pos2Z.inj_succ.
    replace (Z.succ (Zpos (digits2_pos m)) - 1)%Z
      with (Z.succ (Zpos (digits2_pos m) - 1)) by lia.
    rewrite !Z.pow_succ_r by lia. lia.
  - rewrite Pos2Z.inj_succ.
    replace (Z.succ (Zpos (digits2_pos m)) - 1)%Z
      with (Z.succ (Zpos (digits2_pos m) - 1)) by lia.
    rewrite !Z.pow_succ_r by lia. lia.
  - simpl. lia.
Qed.

(** What validity says of a finite binary64 number: the exponent is in
    range, the mantissa has at most 53 bits, and exactly 53 unless the
    number is subnormal. *)
Lemma valid_finite (s : bool) (m : positive) (e : Z) :
  valid (S754_finite s m e) = true ->
  (-1074 <= e <= 971)%Z /\ (Zpos m < 2 ^ 53)%Z
  /\ (e <> -1074 -> 2 ^ 52 <= Zpos m)%Z.
Proof.
  unfold valid, valid_binary, bounded, canonical_mantissa, fexp, SpecFloat.emin.
  change prec with 53%Z. change emax with 1024%Z.
  intros H. apply andb_true_iff in H. destruct H as [H1 H2].
  apply Z.eqb_eq in H1. apply Z.leb_le in H2.
  pose proof (digits2_pos_bounds m) as [Hlo Hhi].
  set (d := Zpos (digits2_pos m)) in *.
  assert (Hd : (d <= 53)%Z) by lia.
  split; [lia|]. split.
  - assert (2 ^ d <= 2 ^ 53)%Z by (apply Z.pow_le_mono_r; lia). lia.
  - intros He. assert (d = 53%Z) as Hd53 by lia.
    rewrite Hd53 in Hlo. exact Hlo.
Qed.

Lemma pow2_pos (k : positive) : Zpos (2 ^ k) = (2 ^ Zpos k)%Z.
Proof. apply Pos2Z.inj_pow. Qed.

Lemma leb_finite_pos (m1 m2 : positive) (e1 e2 : Z) :
  leb (S754_finite false m1 e1) (S754_finite false m2 e2) = true
  <-> (e1 < e2 \/ (e1 = e2 /\ Zpos m1 <= Zpos m2))%Z.
Proof.
  unfold leb, SFleb, SFcompare.
  change (Pos.compare_cont Eq m1 m2) with (Pos.compare m1 m2).
  destruct (Z.compare_spec e1 e2) as [He|He|He];
    [destruct (Pos.compare_spec m1 m2) as [Hm|Hm|Hm]| |];
    (split; intros H;
     solve [ reflexivity | discriminate | left; lia
           | right; split; [assumption|lia]
           | destruct H as [H|[H1 H2]]; lia ]).
Qed.

Lemma price_min_value : price_min = S754_finite false 5764607523034235 (-59).
Proof. vm_compute. reflexivity. Qed.

Lemma price_max_value : price_max = S754_finite false 6871947673600000 (-37).
Proof. vm_compute. reflexivity. Qed.

(** No binary64 number lies between the real number 1/100 and the float
    [0.01]: comparing with the float is comparing with the real bound. *)
Lemma price_min_leb (m : positive) (e : Z) :
  valid (S754_finite false m e) = true ->
  leb price_min (S754_finite false m e) = true
  <-> (1 # 100 <= to_Q (S754_finite false m e))%Q.
Proof.
  intros Hv. apply valid_finite in Hv. destruct Hv as (He & Hhi & Hlo).
  rewrite price_min_value, leb_finite_pos.
  change (2 ^ 53)%Z with 9007199254740992%Z in Hhi.
  change (2 ^ 52)%Z with 4503599627370496%Z in Hlo.
  destruct e as [|k|k]; unfold to_Q, Qle; cbn [Qnum Qden].
  - change (2 ^ 0)%Z with 1%Z. split; [lia|intros _; left; lia].
  - split; [intros _|intros _; left; lia].
    assert (0 < 2 ^ Zpos k)%Z by (apply Z.pow_pos_nonneg; lia). nia.
  - rewrite pow2_pos.
    destruct (Z.lt_trichotomy (Zpos k) 59) as [Hk|[Hk|Hk]].
    + assert (2 ^ Zpos k <= 2 ^ 58)%Z by (apply Z.pow_le_mono_r; lia).
      change (2 ^ 58)%Z with 288230376151711744%Z in *.
      split; [intros _; lia|intros _; left; lia].
    + injection Hk as ->.
      change (2 ^ 59)%Z with 576460752303423488%Z.
      split; [intros [?|[_ ?]]; lia|intros ?; right; split; [reflexivity|lia]].
    + assert (2 ^ 60 <= 2 ^ Zpos k)%Z by (apply Z.pow_le_mono_r; lia).
      change (2 ^ 60)%Z with 1152921504606846976%Z in *.
      split; [intros [?|[? _]]; lia|intros ?; lia].
Qed.

Lemma price_max_leb (m : positive) (e : Z) :
  valid (S754_finite false m e) = true ->
  leb (S754_finite false m e) price_max = true
  <-> (to_Q (S754_finite false m e) <= 50000 # 1)%Q.
Proof.
  intros Hv. apply valid_finite in Hv. destruct Hv as (He & Hhi & Hlo).
  rewrite price_max_value, leb_finite_pos.
  change (2 ^ 53)%Z with 9007199254740992%Z in Hhi.
  change (2 ^ 52)%Z with 4503599627370496%Z in Hlo.
  destruct e as [|k|k]; unfold to_Q, Qle; cbn [Qnum Qden].
  - change (2 ^ 0)%Z with 1%Z. split; [intros [?|[? _]]; lia|lia].
  - assert (0 < 2 ^ Zpos k)%Z by (apply Z.pow_pos_nonneg; lia).
    split; [intros [?|[? _]]; lia|nia].
  - rewrite pow2_pos.
    destruct (Z.lt_trichotomy (Zpos k) 37) as [Hk|[Hk|Hk]].
    + assert (2 ^ Zpos k <= 2 ^ 36)%Z by (apply Z.pow_le_mono_r; lia).
      change (2 ^ 36)%Z with 68719476736%Z in *.
      split; [intros [?|[? _]]; lia|intros ?; lia].
    + injection Hk as ->.
      change (2 ^ 37)%Z with 137438953472%Z.
      split; [intros [?|[_ ?]]; lia|intros ?; right; split; [reflexivity|lia]].
    + assert (2 ^ 38 <= 2 ^ Zpos k)%Z by (apply Z.pow_le_mono_r; lia).
      change (2 ^ 38)%Z with 274877906944%Z in *.
      split; [intros _; lia|intros _; left; lia].
Qed.

(** [validate_price] in terms of the exact value of its argument. *)
Lemma validate_price_exact (v : float) :
  valid v = true ->
  validate_price v = true
  <-> is_finite v = true /\ (1 # 100 <= to_Q v)%Q /\ (to_Q v <= 50000 # 1)%Q.
Proof.
  intros Hv. unfold validate_price. rewrite andb_true_iff.
  destruct v as [s|s| |s m e].
  - split; [intros [H _]; rewrite price_min_value in H; discriminate|].
    intros (_ & H & _). unfold to_Q, Qle in H. simpl in H. lia.
  - split; [|intros [H _]; discriminate].
    intros [H1 H2].
    destruct s; [rewrite price_min_value in H1|rewrite price_max_value in H2];
      discriminate.
  - split; [intros [H _]|intros [H _]]; discriminate.
  - destruct s.
    + split; [intros [H _]; rewrite price_min_value in H; discriminate|].
      intros (_ & H & _). exfalso. revert H.
      destruct e as [|k|k]; unfold to_Q, Qle; cbn [Qnum Qden].
      * lia.
      * assert (0 < 2 ^ Zpos k)%Z by (apply Z.pow_pos_nonneg; lia). nia.
      * lia.
    + rewrite (price_min_leb m e Hv), (price_max_leb m e Hv). tauto.
Qed.

(** C5.  For every binary64 value [v], [validate_price v] holds exactly when
    [v] is a finite number whose exact value lies between 1/100 and 50000;
    it is false at 0.0, true at 0.01 and at 50000, false at 50000.01. *)
Theorem C5_validate_price_range (v : float) :
  valid v = true ->
  (validate_price v = true
   <-> is_finite v = true /\ (1 # 100 <= to_Q v)%Q /\ (to_Q v <= 50000 # 1)%Q)
  /\ validate_price v = leb (of_decimal 1 2) v && leb v (of_decimal 50000 0)
  /\ validate_price (of_decimal 0 1) = false
  /\ validate_price (of_decimal 1 2) = true
  /\ validate_price (of_decimal 50000 0) = true
  /\ validate_price (of_decimal 5000001 2) = false.
Proof.
  intros Hv. split; [now apply validate_price_exact|].
  repeat split; vm_compute; reflexivity.
Qed.

Lemma C5_witness :
  validate_price (of_decimal 79999 2) = true
  <-> is_finite (of_decimal 79999 2) = true
      /\ (1 # 100 <= to_Q (of_decimal 79999 2))%Q
      /\ (to_Q (of_decimal 79999 2) <= 50000 # 1)%Q.
Proof.
  refine (proj1 (C5_validate_price_range (of_decimal 79999 2) _)).
  vm_compute. reflexivity.
Defined.

(** ** The selector loop *)

Lemma first_valid_price_valid texts p :
  first_valid_price texts = Some p -> validated p.
Proof.
  induction texts as [|t texts IH]; [discriminate|]. simpl.
  destruct (parse_price (strip t)) as [q|] eqn:Hq; [|exact IH].
  destruct (truthy q && validate_price q) eqn:E; [|exact IH].
  intros [= ->]. apply andb_true_iff in E. split; [apply E|].
  now apply parse_price_valid in Hq.
Qed.

Lemma try_selectors_cons selector rest page :
  try_selectors (selector :: rest) page
  = match selector_yield page selector with
    | Some p => ([Log (MsgFound p selector)], Some p)
    | None =>
        let '(events, result) := try_selectors rest page in
        (match select page selector with
         | Some _ => events
         | None => Log (MsgSelectorError selector) :: events
         end, result)
    end.
Proof.
  unfold selector_yield. cbn [try_selectors].
  destruct (select page selector) as [texts|].
  - destruct (first_valid_price texts); [reflexivity|].
    now destruct (try_selectors rest page).
  - now destruct (try_selectors rest page).
Qed.

Lemma try_selectors_valid selectors page p :
  snd (try_selectors selectors page) = Some p -> validated p.
Proof.
  induction selectors as [|s rest IH]; [discriminate|].
  rewrite try_selectors_cons. unfold selector_yield.
  destruct (select page s) as [texts|].
  - destruct (first_valid_price texts) as [q|] eqn:E.
    + intros [= ->]. now apply first_valid_price_valid in E.
    + destruct (try_selectors rest page). exact IH.
  - destruct (try_selectors rest page). exact IH.
Qed.

(** The loop returns the price of the first selector that yields one, and
    does not go beyond it. *)
Lemma try_selectors_first selectors page : forall i si vi,
  selectors !! i = Some si -> selector_yield page si = Some vi ->
  exists k sk vk,
    (k <= i)%nat /\ selectors !! k = Some sk /\
    selector_yield page sk = Some vk /\
    (forall k' s', (k' < k)%nat -> selectors !! k' = Some s' ->
                   selector_yield page s' = None) /\
    snd (try_selectors selectors page) = Some vk /\
    last (fst (try_selectors selectors page)) = Some (Log (MsgFound vk sk)) /\
    try_selectors selectors page = try_selectors (take (S k) selectors) page.
Proof.
  induction selectors as [|s rest IH]; intros i si vi Hi Hy; [discriminate|].
  destruct (selector_yield page s) as [v|] eqn:Hs.
  - exists 0%nat, s, v. repeat split; try assumption; try reflexivity.
    + lia.
    + intros k' s' Hk. lia.
    + rewrite try_selectors_cons, Hs. reflexivity.
    + rewrite try_selectors_cons, Hs. reflexivity.
    + cbn [take]. now rewrite !try_selectors_cons, Hs.
  - destruct i as [|i]; [cbn in Hi; congruence|].
    destruct (IH i si vi Hi Hy) as (k & sk & vk & Hk & Hsk & Hyk & Hnone & Hr & Hl & Hstop).
    exists (S k), sk, vk. repeat split; try assumption.
    + lia.
    + intros [|k'] s' Hlt Hs'; [cbn in Hs'; congruence|].
      apply (Hnone k' s'); [lia|exact Hs'].
    + rewrite try_selectors_cons, Hs.
      now destruct (try_selectors rest page).
    + rewrite try_selectors_cons, Hs.
      destruct (try_selectors rest page) as [ev r]. cbn [fst] in *.
      destruct (select page s); [exact Hl|].
      destruct ev; [discriminate|exact Hl].
    + change (take (S (S k)) (s :: rest)) with (s :: take (S k) rest).
      rewrite !try_selectors_cons, Hs, <- Hstop. reflexivity.
Qed.

(** C4.  When two selectors of the ordered list both yield a valid price,
    the loop returns the value of the earliest selector that yields one --
    which is at or before the earlier of the two -- logs it as found, and
    is the loop over the selectors up to that one only; in particular the
    value of the earlier selector is returned whenever no selector before it
    yields, as when it is the first of the list. *)
Theorem C4_earlier_selector_wins (page : response) (i j : nat)
  (si sj : str) (vi vj : float) :
  price_selectors !! i = Some si ->
  price_selectors !! j = Some sj ->
  (i < j)%nat ->
  selector_yield page si = Some vi ->
  selector_yield page sj = Some vj ->
  (exists k sk vk,
     (k <= i)%nat /\ (k < j)%nat /\ price_selectors !! k = Some sk /\
     selector_yield page sk = Some vk /\
     (forall k' s', (k' < k)%nat -> price_selectors !! k' = Some s' ->
                    selector_yield page s' = None) /\
     snd (try_selectors price_selectors page) = Some vk /\
     last (fst (try_selectors price_selectors page))
     = Some (Log (MsgFound vk sk)) /\
     try_selectors price_selectors page
     = try_selectors (take (S k) price_selectors) page)
  /\ ((forall k' s', (k' < i)%nat -> price_selectors !! k' = Some s' ->
                     selector_yield page s' = None) ->
      snd (try_selectors price_selectors page) = Some vi)
  /\ (i = 0%nat -> snd (try_selectors price_selectors page) = Some vi).
Proof.
  intros Hi Hj Hij Hyi Hyj.
  destruct (try_selectors_first price_selectors page i si vi Hi Hyi)
    as (k & sk & vk & Hk & Hsk & Hyk & Hnone & Hr & Hl & Hstop).
  assert (Hfirst : (forall k' s', (k' < i)%nat ->
                      price_selectors !! k' = Some s' ->
                      selector_yield page s' = None) ->
                   snd (try_selectors price_selectors page) = Some vi).
  { intros Hbefore. destruct (Nat.eq_dec k i) as [->|Hne].
    - congruence.
    - rewrite (Hbefore k sk) in Hyk; [discriminate|lia|exact Hsk]. }
  split; [|split].
  - exists k, sk, vk. repeat split; try assumption. lia.
  - exact Hfirst.
  - intros ->. apply Hfirst. intros k' s' Hlt. lia.
Qed.

Lemma C4_witness :
  snd (try_selectors price_selectors page_two_prices)
  = Some (of_decimal 79999 2).
Proof.
  refine (proj2 (proj2 (C4_earlier_selector_wins page_two_prices 0 2
            (lit "span.a-offscreen") (lit "span#priceblock_ourprice")
            (of_decimal 79999 2) (of_decimal 89900 2) _ _ _ _ _)) _).
  - reflexivity.
  - reflexivity.
  - lia.
  - vm_compute. reflexivity.
  - vm_compute. reflexivity.
  - reflexivity.
Defined.

(** ** The retry loop returns validated prices only *)

Lemma after_request_valid max_retries attempt env p :
  snd (after_request max_retries attempt env) = Some p ->
  validated p.
Proof.
  unfold after_request. destruct (fetched env) as [| | |r]; try discriminate.
  destruct (raises_for_status r); [discriminate|].
  destruct (bot_detected (lower (text r))); [discriminate|].
  destruct (try_selectors price_selectors r) as [ev [q|]] eqn:E;
    [|discriminate].
  intros [= ->]. apply (try_selectors_valid price_selectors r).
  now rewrite E.
Qed.

Lemma attempt_body_result url max_retries attempt env :
  snd (attempt_body url max_retries attempt env)
  = snd (after_request max_retries attempt env).
Proof.
  unfold attempt_body. now destruct (after_request max_retries attempt env).
Qed.

Lemma retry_loop_valid url max_retries env remaining : forall attempt p,
  snd (retry_loop url max_retries env remaining attempt) = Some p ->
  validated p.
Proof.
  induction remaining as [|n IH]; intros attempt p; [discriminate|].
  cbn [retry_loop].
  pose proof (attempt_body_result url max_retries attempt (env attempt)) as Hb.
  destruct (attempt_body url max_retries attempt (env attempt)) as [ev [q|]].
  - cbn [snd] in *. intros [= ->]. eapply after_request_valid. symmetry.
    exact Hb.
  - specialize (IH (S attempt) p).
    destruct (retry_loop url max_retries env n (S attempt)). exact IH.
Qed.

(** C1.  Whatever the URL, the retry budget and the behaviour of the
    network, a price returned by [get_price] passed [validate_price]: it
    compares as [0.01 <= price <= 50000], and it is a finite binary64 number
    whose exact value lies between 1/100 and 50000. *)
Theorem C1_returned_price_in_range (url : str) (max_retries : Z)
  (env : nat -> attempt_env) (p : float) :
  snd (get_price url max_retries env) = Some p ->
  validate_price p = true
  /\ leb price_min p = true /\ leb p price_max = true
  /\ valid p = true /\ is_finite p = true
  /\ (1 # 100 <= to_Q p)%Q /\ (to_Q p <= 50000 # 1)%Q.
Proof.
  intros H. apply retry_loop_valid in H. destruct H as [H Hv].
  split; [exact H|].
  pose proof H as H'. unfold validate_price in H'.
  apply andb_true_iff in H'. destruct H' as [H1 H2].
  split; [exact H1|]. split; [exact H2|]. split; [exact Hv|].
  now apply (validate_price_exact p Hv).
Qed.

Lemma C1_witness :
  validate_price (of_decimal 79999 2) = true
  /\ leb price_min (of_decimal 79999 2) = true
  /\ leb (of_decimal 79999 2) price_max = true
  /\ valid (of_decimal 79999 2) = true
  /\ is_finite (of_decimal 79999 2) = true
  /\ (1 # 100 <= to_Q (of_decimal 79999 2))%Q
  /\ (to_Q (of_decimal 79999 2) <= 50000 # 1)%Q.
Proof.
  refine (C1_returned_price_in_range (lit "https://www.amazon.com/dp/B0")
            3 env_third_time_lucky (of_decimal 79999 2) _).
  vm_compute. reflexivity.
Defined.

(** ** The bot-detection phrases *)

Lemma is_prefix_app p post : is_prefix p (p ++ post) = true.
Proof.
  induction p as [|a p IH]; [reflexivity|].
  simpl. now rewrite ascii_eqb_refl.
Qed.

Lemma contains_prefix needle hay :
  is_prefix needle hay = true -> contains needle hay = true.
Proof. intros H. destruct hay; cbn [contains]; now rewrite H. Qed.

Lemma contains_app needle pre post :
  contains needle (pre ++ needle ++ post) = true.
Proof.
  induction pre as [|c pre IH].
  - cbn [app]. apply contains_prefix, is_prefix_app.
  - cbn [app contains]. rewrite IH. apply orb_true_r.
Qed.

Lemma is_prefix_inv p : forall s,
  is_prefix p s = true -> exists post, s = p ++ post.
Proof.
  induction p as [|a p IH]; intros s H; [now exists s|].
  destruct s as [|b s]; [discriminate|]. simpl in H.
  apply andb_true_iff in H. destruct H as [Hab H].
  apply ascii_eqb_eq in Hab. subst b.
  destruct (IH s H) as (post & ->). now exists post.
Qed.

Lemma contains_inv needle : forall hay,
  contains needle hay = true -> exists pre post, hay = pre ++ needle ++ post.
Proof.
  induction hay as [|c hay IH]; intros H.
  - simpl in H. rewrite orb_false_r in H.
    apply is_prefix_inv in H. destruct H as (post & ->). now exists [], post.
  - cbn [contains] in H. apply orb_true_iff in H. destruct H as [H|H].
    + apply is_prefix_inv in H. destruct H as (post & ->). now exists [], post.
    + destruct (IH H) as (pre & post & ->). now exists (c :: pre), post.
Qed.

(** [needle in hay] is the substring relation. *)
Lemma contains_spec needle hay :
  contains needle hay = true <-> exists pre post, hay = pre ++ needle ++ post.
Proof.
  split; [apply contains_inv|].
  intros (pre & post & ->). apply contains_app.
Qed.

Lemma bot_detected_indicator indicator response_text :
  In indicator bot_indicators ->
  contains indicator response_text = true ->
  bot_detected response_text = true.
Proof.
  intros Hin Hc. unfold bot_detected. apply existsb_exists. eauto.
Qed.

(** C7, as stated, fails: the prompt "please enter the characters you see
    in this image" contains none of the eight indicator phrases, so a page
    made of it is not classified as blocked, and [get_price] goes on to
    extract a price from it. *)
Lemma C7_counterexample :
  bot_detected (lower captcha_prompt) = false
  /\ snd (get_price (lit "https://www.amazon.com/dp/B0") 3 env_prompt)
     = Some (of_decimal 79999 2).
Proof. split; vm_compute; reflexivity. Qed.

(** C7, amended.  A page body that contains, in any letter case, one of the
    eight indicator phrases of the code -- such as "type the characters you
    see in this image" or "enter the characters you see below" -- is
    classified as blocked, and the attempt yields no price and logs the
    detection, also when the HTTP status is 200 (or any other status that
    [raise_for_status] accepts). *)
Theorem C7_indicator_blocks (r : response) (indicator pre post : str)
  (max_retries : Z) (attempt : nat) (env : attempt_env) :
  In indicator bot_indicators ->
  lower (text r) = pre ++ indicator ++ post ->
  raises_for_status r = false ->
  fetched env = Response r ->
  bot_detected (lower (text r)) = true
  /\ snd (after_request max_retries attempt env) = None
  /\ hd_error (fst (after_request max_retries attempt env))
     = Some (Log (MsgBotDetected (attempt + 1)))
  /\ In (lit "type the characters you see in this image") bot_indicators
  /\ In (lit "enter the characters you see below") bot_indicators.
Proof.
  intros Hin Htext Hstatus Hfetched.
  assert (Hbot : bot_detected (lower (text r)) = true).
  { apply (bot_detected_indicator indicator); [exact Hin|].
    rewrite Htext. apply contains_app. }
  split; [exact Hbot|].
  unfold after_request. rewrite Hfetched, Hstatus, Hbot.
  repeat split.
  - right; right; right; right; right; right; right; left. reflexivity.
  - right; right; right; right; right; right; left. reflexivity.
Qed.

Lemma C7_witness :
  bot_detected (lower (text page_type_the_characters)) = true
  /\ snd (after_request 3 0
            {| jitter := of_decimal 0 1; bot_wait := of_Z 10;
               fetched := Response page_type_the_characters |}) = None.
Proof.
  pose proof (C7_indicator_blocks page_type_the_characters
            (lit "type the characters you see in this image")
            (lit "<p>") (lit ":</p>") 3 0
            {| jitter := of_decimal 0 1; bot_wait := of_Z 10;
               fetched := Response page_type_the_characters |}) as H.
  destruct H as (H1 & H2 & _).
  - right; right; right; right; right; right; right; left. reflexivity.
  - reflexivity.
  - reflexivity.
  - reflexivity.
  - split; assumption.
Defined.

(** ** The trace of the retry loop *)

Lemma before_request_app i pre trace :
  forallb (fun e => negb (is_get e)) pre = true ->
  before_request i (pre ++ trace) = option_map (app pre) (before_request i trace).
Proof.
  induction pre as [|e pre IH]; intros H.
  - simpl. now destruct (before_request i trace).
  - simpl in H. apply andb_true_iff in H. destruct H as [He H].
    cbn [app before_request]. apply negb_true_iff in He. rewrite He.
    rewrite (IH H). now destruct (before_request i trace).
Qed.

Lemma try_selectors_no_get selectors page :
  forallb (fun e => negb (is_get e)) (fst (try_selectors selectors page)) = true.
Proof.
  induction selectors as [|s rest IH]; [reflexivity|].
  rewrite try_selectors_cons.
  destruct (selector_yield page s); [reflexivity|].
  destruct (try_selectors rest page) as [ev r]. cbn [fst] in *.
  destruct (select page s); [exact IH|]. exact IH.
Qed.

Lemma after_request_no_get max_retries attempt env :
  forallb (fun e => negb (is_get e))
    (fst (after_request max_retries attempt env)) = true.
Proof.
  unfold after_request. destruct (fetched env) as [| | |r]; try reflexivity.
  destruct (raises_for_status r); [reflexivity|].
  destruct (bot_detected (lower (text r))).
  - now destruct (Z.of_nat attempt <? max_retries - 1)%Z.
  - pose proof (try_selectors_no_get price_selectors r) as H.
    destruct (try_selectors price_selectors r) as [ev [q|]]; [exact H|].
    cbn [fst] in *. rewrite forallb_app, H. unfold no_price_events.
    now destruct (negb _ && negb _).
Qed.

Lemma backoff_no_get attempt j :
  forallb (fun e => negb (is_get e)) (backoff attempt j) = true.
Proof. unfold backoff. now destruct (0 <? attempt)%nat. Qed.

Lemma referer_no_get url :
  forallb (fun e => negb (is_get e)) (referer_events url) = true.
Proof. unfold referer_events. now destruct (contains _ url). Qed.

(** The trace of the loop: the prologue of the current attempt, its
    request, what follows it, then the rest of the loop. *)
Lemma retry_loop_trace url max_retries env remaining attempt :
  exists tail,
    fst (retry_loop url max_retries env (S remaining) attempt)
    = (backoff attempt (jitter (env attempt))
       ++ SetupSession :: referer_events url)
      ++ HttpGet url
         :: fst (after_request max_retries attempt (env attempt)) ++ tail
    /\ (tail = []
        \/ tail = fst (retry_loop url max_retries env remaining (S attempt))).
Proof.
  cbn [retry_loop]. unfold attempt_body, request. fold (referer_events url).
  destruct (after_request max_retries attempt (env attempt)) as [ev [q|]].
  - exists []. split; [|now left]. cbn [fst]. rewrite app_nil_r.
    rewrite <- !app_assoc. reflexivity.
  - exists (fst (retry_loop url max_retries env remaining (S attempt))).
    split; [|now right].
    destruct (retry_loop url max_retries env remaining (S attempt)).
    cbn [fst]. rewrite <- !app_assoc. reflexivity.
Qed.

Lemma app_cons_assoc {A} (a : list A) (x : A) (b c d : list A) :
  (a ++ x :: b ++ c) ++ d = a ++ x :: b ++ c ++ d.
Proof. now rewrite <- app_assoc, <- app_comm_cons, <- app_assoc. Qed.

Lemma before_request_retry_loop url max_retries env remaining :
  forall attempt i pre,
    before_request i (fst (retry_loop url max_retries env remaining attempt))
    = Some pre ->
    (i = 0%nat ->
     pre = backoff attempt (jitter (env attempt))
           ++ SetupSession :: referer_events url)
    /\ ((1 <= i)%nat ->
        exists pre',
          pre = pre'
                ++ Sleep (backoff_delay (attempt + i)
                            (jitter (env (attempt + i)%nat)))
                   :: SetupSession :: referer_events url).
Proof.
  induction remaining as [|n IH]; intros attempt i pre H.
  - destruct i; discriminate.
  - destruct (retry_loop_trace url max_retries env n attempt)
      as (tail & Htrace & Htail).
    rewrite Htrace in H. clear Htrace.
    set (prologue := backoff attempt (jitter (env attempt))
                     ++ SetupSession :: referer_events url) in *.
    assert (Hpro : forallb (fun e => negb (is_get e)) prologue = true).
    { subst prologue. rewrite forallb_app, backoff_no_get. cbn.
      apply referer_no_get. }
    rewrite (before_request_app _ _ _ Hpro) in H.
    cbn [before_request is_get] in H.
    destruct i as [|i].
    + cbn in H. injection H as <-. rewrite app_nil_r.
      split; [reflexivity|lia].
    + split; [discriminate|intros _].
      rewrite (before_request_app _ _ _
                 (after_request_no_get max_retries attempt (env attempt))) in H.
      destruct Htail as [->| ->]; [destruct i; discriminate|].
      destruct (before_request i
                  (fst (retry_loop url max_retries env n (S attempt))))
        as [pre2|] eqn:E; [|discriminate].
      cbn in H. injection H as <-.
      destruct (IH (S attempt) i pre2 E) as [H0 H1].
      replace (attempt + S i)%nat with (S attempt + i)%nat by lia.
      destruct i as [|i].
      * rewrite (H0 eq_refl). rewrite Nat.add_0_r.
        set (d := backoff_delay (S attempt) (jitter (env (S attempt)))).
        exists (prologue
                ++ HttpGet url
                   :: fst (after_request max_retries attempt (env attempt))
                      ++ [Log (MsgRetry (S attempt + 1) d)]).
        symmetry.
        exact (app_cons_assoc prologue (HttpGet url) _
                 [Log (MsgRetry (S attempt + 1) d)]
                 (Sleep d :: SetupSession :: referer_events url)).
      * destruct H1 as (pre' & ->); [lia|].
        eexists. symmetry. apply app_cons_assoc.
Qed.

(** C8.  In every run of [get_price], what precedes the request of attempt
    [i >= 1] ends with a sleep of [max(1, (2 + 1.5 * i) + jitter)] seconds,
    followed only by the set-up of the session; nothing is slept before the
    request of the first attempt. *)
Theorem C8_backoff_before_retry (url : str) (max_retries : Z)
  (env : nat -> attempt_env) (i : nat) (pre : list event) :
  before_request i (fst (get_price url max_retries env)) = Some pre ->
  (i = 0%nat -> existsb is_sleep pre = false)
  /\ ((1 <= i)%nat ->
      exists pre',
        pre = pre'
              ++ Sleep (py_max (of_Z 1)
                          (add (add (of_Z 2)
                                  (mul (of_Z (Z.of_nat i)) (of_decimal 15 1)))
                               (jitter (env i))))
                 :: SetupSession :: referer_events url).
Proof.
  intros H. unfold get_price in H.
  apply before_request_retry_loop in H. destruct H as [H0 H1].
  split.
  - intros ->. rewrite (H0 eq_refl). cbn. unfold referer_events.
    now destruct (contains _ url).
  - intros Hi. exact (H1 Hi).
Qed.

Lemma C8_witness :
  exists pre',
    [SetupSession; SetReferer; HttpGet (lit "https://www.amazon.com/dp/B0");
     Log (MsgTimeout 1);
     Log (MsgRetry 2 (of_decimal 375 2)); Sleep (of_decimal 375 2);
     SetupSession; SetReferer]
    = pre'
      ++ Sleep (py_max (of_Z 1)
                  (add (add (of_Z 2)
                          (mul (of_Z (Z.of_nat 1)) (of_decimal 15 1)))
                       (jitter (env_third_time_lucky 1))))
         :: SetupSession
         :: referer_events (lit "https://www.amazon.com/dp/B0").
Proof.
  refine (proj2 (C8_backoff_before_retry (lit "https://www.amazon.com/dp/B0")
                   3 env_third_time_lucky 1 _ _) _).
  - vm_compute. reflexivity.
  - lia.
Defined.

(** ** Failures of [get_price] *)

Lemma after_request_failure max_retries attempt env f :
  attempt_failure env = Some f ->
  snd (after_request max_retries attempt env) = None
  /\ existsb (reports f (attempt + 1))
       (fst (after_request max_retries attempt env)) = true.
Proof.
  unfold attempt_failure, after_request.
  destruct (fetched env) as [| | |r].
  - intros [= <-]. cbn. now rewrite Nat.eqb_refl.
  - intros [= <-]. cbn. now rewrite Nat.eqb_refl.
  - intros [= <-]. cbn. now rewrite Nat.eqb_refl.
  - destruct (raises_for_status r).
    { intros [= <-]. cbn. now rewrite Nat.eqb_refl. }
    destruct (bot_detected (lower (text r))).
    { intros [= <-]. cbn. now rewrite Nat.eqb_refl. }
    destruct (try_selectors price_selectors r) as [ev [q|]]; [discriminate|].
    intros [= <-]. cbn [fst snd]. split; [reflexivity|].
    rewrite existsb_app. unfold no_price_events. cbn [existsb reports].
    rewrite Nat.eqb_refl. cbn. apply orb_true_r.
Qed.

(** When every attempt fails, for whatever reasons, the loop returns
    [None], after logging the reason of each attempt and the final
    failure. *)
Lemma retry_loop_failure url max_retries env remaining : forall attempt,
  (forall i, (attempt <= i < attempt + remaining)%nat ->
             exists f, attempt_failure (env i) = Some f) ->
  snd (retry_loop url max_retries env remaining attempt) = None
  /\ last (fst (retry_loop url max_retries env remaining attempt))
     = Some (Log (MsgFailed max_retries))
  /\ forall i f, (attempt <= i < attempt + remaining)%nat ->
       attempt_failure (env i) = Some f ->
       existsb (reports f (i + 1))
         (fst (retry_loop url max_retries env remaining attempt)) = true.
Proof.
  induction remaining as [|n IH]; intros attempt Hall.
  - repeat split. intros i f Hi. lia.
  - destruct (Hall attempt) as (f0 & Hf0); [lia|].
    destruct (after_request_failure max_retries attempt (env attempt) f0 Hf0)
      as [Hnone Hlog].
    destruct (IH (S attempt)) as (Hr & Hl & Hlogs).
    { intros i Hi. apply Hall. lia. }
    cbn [retry_loop]. unfold attempt_body.
    destruct (after_request max_retries attempt (env attempt)) as [ev r].
    cbn [fst snd] in *. subst r.
    destruct (retry_loop url max_retries env n (S attempt)) as [ev' r'].
    cbn [fst snd] in *. subst r'.
    split; [reflexivity|]. split.
    + rewrite !app_assoc. destruct ev' as [|e0 ev']; [discriminate|].
      rewrite last_app. now rewrite Hl.
    + intros i f Hi Hf. rewrite !existsb_app.
      destruct (Nat.eq_dec i attempt) as [->|Hne].
      * assert (f = f0) as -> by congruence.
        rewrite Hlog. now rewrite !orb_true_r.
      * rewrite (Hlogs i f); [|lia|exact Hf]. now rewrite !orb_true_r.
Qed.

Lemma budget_covers (max_retries : Z) (i : nat) :
  (0 <= i < 0 + Z.to_nat max_retries)%nat -> (Z.of_nat i < max_retries)%Z.
Proof. lia. Qed.

(** C2, as stated, fails: a run whose attempts end with the patterns
    exhausted, one whose attempts are all blocked and one whose attempts all
    time out return the same value, [None]; and no two failing runs return
    different values. *)
Lemma C2_counterexample :
  (attempt_failure (env_no_price 0) = Some NoPriceFound
   /\ attempt_failure (env_blocked 0) = Some Blocked
   /\ attempt_failure (env_timeout 0) = Some NetworkError)
  /\ (snd (get_price product_url 3 env_no_price) = None
      /\ snd (get_price product_url 3 env_blocked) = None
      /\ snd (get_price product_url 3 env_timeout) = None)
  /\ ~ (exists url1 n1 env1 url2 n2 env2,
          (forall i, (Z.of_nat i < n1)%Z ->
                     exists f, attempt_failure (env1 i) = Some f) /\
          (forall i, (Z.of_nat i < n2)%Z ->
                     exists f, attempt_failure (env2 i) = Some f) /\
          snd (get_price url1 n1 env1) <> snd (get_price url2 n2 env2)).
Proof.
  split; [repeat split; vm_compute; reflexivity|].
  split; [repeat split; vm_compute; reflexivity|].
  intros (url1 & n1 & env1 & url2 & n2 & env2 & H1 & H2 & Hne).
  apply Hne. unfold get_price.
  rewrite (proj1 (retry_loop_failure url1 n1 env1 (Z.to_nat n1) 0
                    (fun i Hi => H1 i (budget_covers n1 i Hi)))).
  rewrite (proj1 (retry_loop_failure url2 n2 env2 (Z.to_nat n2) 0
                    (fun i Hi => H2 i (budget_covers n2 i Hi)))).
  reflexivity.
Qed.

(** C2, amended.  When every attempt of a run fails -- patterns exhausted,
    bot block, network error, or any mix of them -- [get_price] returns the
    one value [None]; the reasons are told apart in the log only, where each
    attempt's failure is reported before the final failure message. *)
Theorem C2_failure_returns_none (url : str) (max_retries : Z)
  (env : nat -> attempt_env) :
  (forall i, (Z.of_nat i < max_retries)%Z ->
             exists f, attempt_failure (env i) = Some f) ->
  snd (get_price url max_retries env) = None
  /\ last (fst (get_price url max_retries env))
     = Some (Log (MsgFailed max_retries))
  /\ forall i f, (Z.of_nat i < max_retries)%Z ->
       attempt_failure (env i) = Some f ->
       existsb (reports f (i + 1)) (fst (get_price url max_retries env)) = true.
Proof.
  intros Hall. unfold get_price.
  destruct (retry_loop_failure url max_retries env (Z.to_nat max_retries) 0)
    as (Hr & Hl & Hlogs).
  { intros i Hi. apply Hall. lia. }
  repeat split; try assumption.
  intros i f Hi. apply Hlogs. lia.
Qed.

Lemma C2_witness :
  snd (get_price product_url 3 env_blocked) = None
  /\ last (fst (get_price product_url 3 env_blocked)) = Some (Log (MsgFailed 3)).
Proof.
  destruct (C2_failure_returns_none product_url 3 env_blocked) as (H1 & H2 & _).
  - intros i _. exists Blocked. vm_compute. reflexivity.
  - split; assumption.
Defined.

(** ** [update_price_history] *)

Lemma last100_short (l : list entry) : (length l <= 100)%nat -> last100 l = l.
Proof.
  intros H. unfold last100.
  replace (length l - 100)%nat with 0%nat by lia. apply drop_0.
Qed.

Lemma length_last100 (l : list entry) :
  length (last100 l) = Nat.min 100 (length l).
Proof. unfold last100. rewrite length_drop. lia. Qed.

Lemma last100_suffix (l : list entry) :
  l = take (length l - 100) l ++ last100 l.
Proof. unfold last100. symmetry. apply take_drop. Qed.

Lemma last_last100 (l : list entry) (e : entry) :
  last (last100 (l ++ [e])) = Some e.
Proof.
  unfold last100. rewrite last_lookup, lookup_drop, length_drop.
  rewrite length_app. cbn [length].
  replace (length l + 1 - 100
           + Nat.pred (length l + 1 - (length l + 1 - 100)))%nat
    with (length l + 0)%nat by lia.
  rewrite lookup_app_r by lia.
  replace (length l + 0 - length l)%nat with 0%nat by lia. reflexivity.
Qed.

(** The list of the updated product after the call. *)
Lemma update_price_history_lookup (h : gmap str (list entry))
  (name : str) (p : float) (now : str) :
  update_price_history h name p now !! name
  = Some (last100 (default [] (h !! name)
                   ++ [{| price := p; timestamp := now |}])).
Proof.
  unfold update_price_history.
  set (e := {| price := p; timestamp := now |}).
  set (h1 := match h !! name with
             | Some _ => h
             | None => <[name:=[]]> h
             end).
  assert (H1 : h1 !! name = Some (default [] (h !! name))).
  { subst h1. destruct (h !! name) as [l|] eqn:E; cbn [default].
    - exact E.
    - apply lookup_insert_eq. }
  rewrite lookup_alter_eq, H1. cbn [fmap option_fmap option_map].
  set (l := default [] (h !! name) ++ [e]).
  destruct (100 <? length l)%nat eqn:Hlen.
  - apply lookup_insert_eq.
  - rewrite lookup_alter_eq, H1. cbn [fmap option_fmap option_map].
    apply Nat.ltb_ge in Hlen. fold l. now rewrite last100_short.
Qed.

(** The lists of the other products after the call. *)
Lemma update_price_history_other (h : gmap str (list entry))
  (name other : str) (p : float) (now : str) :
  other <> name ->
  update_price_history h name p now !! other = h !! other.
Proof.
  intros Hne. unfold update_price_history.
  set (e := {| price := p; timestamp := now |}).
  set (h1 := match h !! name with
             | Some _ => h
             | None => <[name:=[]]> h
             end).
  assert (H1 : h1 !! other = h !! other).
  { subst h1. destruct (h !! name); [reflexivity|].
    apply lookup_insert_ne. congruence. }
  destruct (alter (fun l => l ++ [e]) name h1 !! name) as [l|].
  - destruct (100 <? length l)%nat.
    + rewrite lookup_insert_ne by congruence.
      rewrite lookup_alter_ne by congruence. exact H1.
    + rewrite lookup_alter_ne by congruence. exact H1.
  - rewrite lookup_alter_ne by congruence. exact H1.
Qed.

Lemma update_price_history_bounded (h : gmap str (list entry))
  (name : str) (p : float) (now : str) :
  bounded_history h -> bounded_history (update_price_history h name p now).
Proof.
  intros Hinv q l Hq.
  destruct (decide (q = name)) as [->|Hne].
  - rewrite update_price_history_lookup in Hq. injection Hq as <-.
    rewrite length_last100. lia.
  - rewrite update_price_history_other in Hq by assumption.
    now apply (Hinv q).
Qed.

(** Starting from the empty history, any sequence of calls leaves at most
    100 entries per product. *)
Lemma history_bounded_from_empty (calls : list (str * float * str)) :
  bounded_history
    (foldl (fun h '(name, p, now) => update_price_history h name p now)
           ∅ calls).
Proof.
  induction calls as [|[[name p] now] calls IH] using rev_ind.
  - intros q l Hq. cbn [foldl] in Hq. rewrite lookup_empty in Hq.
    discriminate.
  - rewrite foldl_app. cbn [foldl]. now apply update_price_history_bounded.
Qed.

(** C10.  After [update_price_history], the list of the updated product
    holds the last 100 entries of its former list extended with the new
    entry: it has at most 100 entries (all of them when there are fewer), is
    a suffix of the extended list, and ends with the new entry; the lists of
    the other products are unchanged; so if no list had more than 100
    entries before the call, none has after it. *)
Theorem C10_history_keeps_last_100 (h : gmap str (list entry))
  (name : str) (p : float) (now : str) :
  let e := {| price := p; timestamp := now |} in
  let old := default [] (h !! name) in
  let h' := update_price_history h name p now in
  exists kept_entries,
    h' !! name = Some kept_entries
    /\ kept_entries = drop (length (old ++ [e]) - 100) (old ++ [e])
    /\ (length kept_entries <= 100)%nat
    /\ length kept_entries = Nat.min 100 (S (length old))
    /\ (exists dropped, old ++ [e] = dropped ++ kept_entries)
    /\ last kept_entries = Some e
    /\ (forall other, other <> name -> h' !! other = h !! other)
    /\ (bounded_history h -> bounded_history h').
Proof.
  intros e old h'.
  exists (last100 (old ++ [e])).
  assert (Hlen : length (last100 (old ++ [e])) = Nat.min 100 (S (length old))).
  { rewrite length_last100, length_app. cbn [length]. lia. }
  split; [apply update_price_history_lookup|].
  split; [reflexivity|].
  split; [lia|].
  split; [exact Hlen|].
  split; [eexists; apply last100_suffix|].
  split; [apply last_last100|].
  split; [intros other Hne; now apply update_price_history_other|].
  apply update_price_history_bounded.
Qed.

(** * Further properties of the code *)

(** ** [parse_price]: what the text contributes *)

Lemma parse_price_of_clean (s : str) :
  parse_price s = parse_with price_patterns (clean s).
Proof.
  destruct s as [|c s]; [|reflexivity].
  symmetry. now apply parse_with_no_digit.
Qed.

Lemma clean_idempotent (s : str) : clean (clean s) = clean s.
Proof.
  induction s as [|c s IH]; [reflexivity|].
  simpl. destruct (kept c) eqn:E; [|exact IH].
  simpl. now rewrite E, IH.
Qed.

(** X1.  Only the digits, dots, commas and hyphens of a text matter to
    [parse_price]: two texts with the same cleaned form parse alike, and a
    text parses like its cleaned form. *)
Theorem X1_parse_price_depends_on_cleaned_text (s t : str) :
  clean s = clean t ->
  parse_price s = parse_price t /\ parse_price s = parse_price (clean s).
Proof.
  intros H. rewrite !parse_price_of_clean, clean_idempotent, H.
  split; reflexivity.
Qed.

Lemma X1_witness :
  parse_price (lit "USD 1 234.56 (incl VAT)") = parse_price (lit "$1234.56")
  /\ parse_price (lit "USD 1 234.56 (incl VAT)")
     = parse_price (clean (lit "USD 1 234.56 (incl VAT)")).
Proof.
  apply (X1_parse_price_depends_on_cleaned_text
           (lit "USD 1 234.56 (incl VAT)") (lit "$1234.56")).
  vm_compute. reflexivity.
Defined.

Lemma space_not_kept (c : ascii) : is_space c = true -> kept c = false.
Proof.
  destruct c as [[] [] [] [] [] [] [] []]; vm_compute; congruence.
Qed.

Lemma clean_lstrip (s : str) : clean (lstrip s) = clean s.
Proof.
  induction s as [|c s IH]; [reflexivity|].
  cbn [lstrip]. destruct (is_space c) eqn:E; [|reflexivity].
  rewrite IH. cbn [clean List.filter]. now rewrite (space_not_kept c E).
Qed.

Lemma clean_rev (s : str) : clean (rev s) = rev (clean s).
Proof.
  induction s as [|c s IH]; [reflexivity|].
  cbn [rev]. rewrite clean_app, IH. cbn [clean List.filter].
  destruct (kept c); cbn [rev app]; [reflexivity|now rewrite app_nil_r].
Qed.

Lemma clean_strip (s : str) : clean (strip s) = clean s.
Proof.
  unfold strip. rewrite clean_rev, clean_lstrip, clean_rev, rev_involutive.
  apply clean_lstrip.
Qed.

(** X2.  Stripping the text of an element before parsing it, as [get_price]
    does, never changes the parse. *)
Theorem X2_strip_is_redundant (element_text : str) :
  parse_price (strip element_text) = parse_price element_text.
Proof. now rewrite !parse_price_of_clean, clean_strip. Qed.

(** ** [parse_price]: whole amounts and comma decimals *)

(** What [re.search] returns when the preferred match at the start of the
    text leaves [rest]. *)
Lemma re_search_first r w rest l :
  w <> [] -> matches r (w ++ rest) = rest :: l ->
  re_search r (w ++ rest) = Some w.
Proof.
  intros Hw H. destruct (w ++ rest) as [|c s] eqn:E.
  - destruct w; [congruence|discriminate].
  - cbn [re_search]. rewrite H, <- E. now rewrite matched_text.
Qed.

Lemma times_digit_short n : forall s,
  (length s < n)%nat -> times (matches Digit) n s = [].
Proof.
  induction n as [|n IH]; intros s H; [lia|].
  cbn [times matches]. destruct s as [|c s]; [reflexivity|].
  destruct (is_digit c); [|reflexivity].
  cbn [flat_map]. rewrite IH by (simpl in H; lia). reflexivity.
Qed.

Lemma group3_short fs :
  (length fs < 3)%nat -> matches group3 (","%char :: fs) = [].
Proof.
  intros H.
  change (matches group3 (","%char :: fs))
    with (flat_map (times (matches Digit) 3)
            (if ascii_eqb "," "," then [fs] else [])).
  rewrite ascii_eqb_refl. cbn [flat_map].
  now rewrite times_digit_short.
Qed.

(** On [d+,d{0,2}] the standard pattern stops at the comma. *)
Lemma standard_match_before_comma ds fs :
  all_digits ds -> ds <> [] -> (length fs < 3)%nat ->
  exists l,
    matches pattern_standard (ds ++ ","%char :: fs) = (","%char :: fs) :: l.
Proof.
  intros Hds Hne Hfs.
  set (rest := ","%char :: fs).
  set (tail := Cat (Opt (Chr ".")) digits0).
  change (matches pattern_standard (ds ++ rest))
    with (flat_map (fun s' => flat_map (matches tail) (matches (Star group3) s'))
            (matches digits1 (ds ++ rest))).
  destruct (digits1_head ds rest) as (l1 & ->); auto.
  cbn [flat_map].
  change (matches (Star group3) rest) with (star (matches group3) (length rest) rest).
  rewrite star_stop by (now apply group3_short).
  cbn [flat_map]. subst tail.
  change (matches (Cat (Opt (Chr ".")) digits0) rest)
    with (flat_map (matches digits0) (matches (Chr ".") rest ++ [rest])).
  replace (matches (Chr ".") rest) with (@nil str) by reflexivity.
  cbn [app flat_map].
  change (matches digits0 rest) with (star (matches Digit) (length rest) rest).
  rewrite star_stop by reflexivity.
  simpl. eauto.
Qed.

(** X3.  A price written with a decimal comma and one or two decimals (or
    none), as in [12,34 EUR], loses its decimals: [parse_price] returns the
    float of the digits before the comma. *)
Theorem X3_comma_decimals_are_dropped (sym ds fs trail : str) :
  has_digit sym = false ->
  all_digits ds -> ds <> [] ->
  all_digits fs -> (length fs < 3)%nat ->
  clean trail = [] ->
  parse_price (sym ++ ds ++ ","%char :: fs ++ trail)
  = Some (of_decimal (number ds) 0).
Proof.
  intros Hsym Hds Hne Hfs Hlen Htrail.
  rewrite parse_price_of_clean.
  replace (clean (sym ++ ds ++ ","%char :: fs ++ trail))
    with (clean sym ++ ds ++ ","%char :: fs).
  - unfold price_patterns. cbn [parse_with].
    rewrite re_search_skip;
      [|now left|now rewrite has_digit_clean|destruct ds; [congruence|discriminate]].
    destruct (standard_match_before_comma ds fs Hds Hne Hlen) as (l & Hm).
    rewrite (re_search_first _ _ _ _ Hne Hm).
    rewrite (remove_commas_digits ds Hds).
    now rewrite (py_float_integer ds Hds Hne).
  - rewrite !clean_app, (clean_digits ds Hds).
    change (","%char :: fs ++ trail) with ([","%char] ++ fs ++ trail).
    rewrite !clean_app, (clean_digits fs Hfs), Htrail, app_nil_r.
    reflexivity.
Qed.

Lemma X3_witness :
  parse_price (lit "EUR 12,34 *") = Some (of_decimal 12 0).
Proof.
  apply (X3_comma_decimals_are_dropped (lit "EUR ") (lit "12") (lit "34") (lit " *")).
  - reflexivity.
  - repeat constructor.
  - discriminate.
  - repeat constructor.
  - simpl. lia.
  - reflexivity.
Defined.

(** On [d+(,ddd)*] the standard pattern consumes the whole text. *)
Lemma standard_whole_match_integer g0 groups :
  all_digits g0 -> g0 <> [] -> well_grouped groups ->
  exists l, matches pattern_standard (g0 ++ grouped groups) = [] :: l.
Proof.
  intros H0 Hne Hg.
  set (tail := Cat (Opt (Chr ".")) digits0).
  set (s1 := grouped groups).
  change (matches pattern_standard (g0 ++ s1))
    with (flat_map (fun s' => flat_map (matches tail) (matches (Star group3) s'))
            (matches digits1 (g0 ++ s1))).
  destruct (digits1_head g0 s1) as (l1 & ->); auto.
  { subst s1. destruct groups; reflexivity. }
  cbn [flat_map].
  change (matches (Star group3) s1) with (star (matches group3) (length s1) s1).
  subst s1. rewrite <- (app_nil_r (grouped groups)).
  destruct (star_groups_head (length (grouped groups ++ [])) groups [])
    as (l2 & ->); auto.
  cbn [flat_map]. subst tail. simpl. eauto.
Qed.

(** X4.  A whole amount with thousands separators, as in [$1,299], parses
    to the float of its digits. *)
Theorem X4_parse_grouped_integer (sym g0 : str) (groups : list str) (trail : str) :
  has_digit sym = false ->
  all_digits g0 -> g0 <> [] ->
  well_grouped groups ->
  clean trail = [] ->
  parse_price (sym ++ g0 ++ grouped groups ++ trail)
  = Some (of_decimal (number (g0 ++ concat groups)) 0).
Proof.
  intros Hsym H0 Hne Hg Htrail.
  rewrite parse_price_of_clean.
  replace (clean (sym ++ g0 ++ grouped groups ++ trail))
    with (clean sym ++ g0 ++ grouped groups)
    by (now rewrite !clean_app, (clean_digits g0 H0), (clean_grouped groups Hg),
          Htrail, app_nil_r).
  unfold price_patterns. cbn [parse_with].
  rewrite re_search_skip;
    [|now left|now rewrite has_digit_clean|destruct g0; [congruence|discriminate]].
  destruct (standard_whole_match_integer g0 groups H0 Hne Hg) as (l & Hm).
  rewrite (re_search_whole _ _ _ Hm).
  rewrite remove_commas_app, (remove_commas_digits g0 H0),
    (remove_commas_grouped groups Hg).
  rewrite py_float_integer; [reflexivity| |].
  - apply Forall_app. split; [assumption|now apply all_digits_concat].
  - destruct g0; [congruence|discriminate].
Qed.

Lemma X4_witness :
  parse_price (lit "$1,299 ") = Some (of_decimal 1299 0).
Proof.
  apply (X4_parse_grouped_integer (lit "$") (lit "1") [lit "299"] (lit " ")).
  - reflexivity.
  - repeat constructor.
  - discriminate.
  - repeat constructor.
  - reflexivity.
Defined.

(** ** [parse_price]: the sign of the result *)

Lemma binary_round_aux_nonneg (mx ex : Z) (lx : location) :
  (0 <= mx)%Z -> nonneg (binary_round_aux prec emax false mx ex lx) = true.
Proof.
  intros Hm. unfold binary_round_aux.
  pose proof (shr_fexp_bounds mx ex lx Hm) as H1.
  destruct (shr_fexp prec emax mx ex lx) as [mrs1 e1]. cbn [fst] in H1.
  pose proof (round_nearest_even_bounds (shr_m mrs1) (loc_of_shr_record mrs1))
    as Hr.
  set (m2 := round_nearest_even (shr_m mrs1) (loc_of_shr_record mrs1)) in *.
  pose proof (shr_fexp_bounds m2 e1 loc_Exact ltac:(lia)) as H2.
  destruct (shr_fexp prec emax m2 e1 loc_Exact) as [mrs2 e2]. cbn [fst] in H2.
  destruct (shr_m mrs2) as [|m|m]; [reflexivity| |lia].
  now destruct (e2 <=? emax - prec)%Z.
Qed.

Lemma of_decimal_nonneg (n : N) (k : nat) : nonneg (of_decimal n k) = true.
Proof.
  destruct n as [|p]; [reflexivity|].
  unfold of_decimal, SFdiv.
  pose proof (SFdiv_core_digits p (pow10 k)) as H.
  destruct (SFdiv_core_binary prec emax (Zpos p) 0 (Zpos (pow10 k)) 0)
    as [[q e'] l].
  destruct H as [Hq _]. now apply binary_round_aux_nonneg.
Qed.

Lemma py_float_nonneg (s : str) (p : float) :
  py_float s = Some p -> nonneg p = true.
Proof.
  unfold py_float.
  destruct (read_digits 0 0 s) as [[ip ni] s1].
  destruct s1 as [|c s2].
  - destruct (0 <? ni)%nat; [|discriminate].
    intros [= <-]. apply of_decimal_nonneg.
  - destruct (ascii_eqb c "."); [|discriminate].
    destruct (read_digits ip 0 s2) as [[n nf] s3].
    destruct s3; [|discriminate].
    destruct (0 <? ni + nf)%nat; [|discriminate].
    intros [= <-]. apply of_decimal_nonneg.
Qed.

(** X5.  [parse_price] never returns a negative number or a NaN: a hyphen
    or minus sign in the text is kept by the cleaning step but never read as
    a sign. *)
Theorem X5_parse_price_is_never_negative (price_text : str) (p : float) :
  parse_price price_text = Some p ->
  nonneg p = true /\ leb (S754_zero false) p = true.
Proof.
  intros H. assert (Hn : nonneg p = true).
  { rewrite parse_price_of_clean in H. revert H.
    generalize price_patterns as patterns.
    induction patterns as [|r rest IH]; [discriminate|]. simpl.
    destruct (re_search r (clean price_text)) as [g|]; [|exact IH].
    destruct (py_float (remove_commas g)) as [q|] eqn:E; [|exact IH].
    intros [= <-]. now apply py_float_nonneg in E. }
  split; [exact Hn|].
  destruct p as [[]|[]| |[] m e]; try discriminate; reflexivity.
Qed.

Lemma X5_witness :
  nonneg (of_decimal 5 0) = true /\ leb (S754_zero false) (of_decimal 5 0) = true.
Proof.
  apply (X5_parse_price_is_never_negative (lit "-5")). vm_compute. reflexivity.
Defined.

(** ** [get_price]: requests and the retry budget *)






(** ** [get_price]: when and what it returns *)

Lemma first_valid_price_source texts p :
  first_valid_price texts = Some p ->
  exists t, In t texts /\ parse_price (strip t) = Some p.
Proof.
  induction texts as [|t texts IH]; [discriminate|]. cbn [first_valid_price].
  destruct (parse_price (strip t)) as [q|] eqn:Hq.
  - destruct (truthy q && validate_price q).
    + intros [= ->]. exists t. split; [now left|exact Hq].
    + intros H. destruct (IH H) as (t' & Hin & Ht'). exists t'.
      split; [now right|exact Ht'].
  - intros H. destruct (IH H) as (t' & Hin & Ht'). exists t'.
    split; [now right|exact Ht'].
Qed.

Lemma try_selectors_source selectors page p :
  snd (try_selectors selectors page) = Some p ->
  exists sel, In sel selectors /\ selector_yield page sel = Some p.
Proof.
  induction selectors as [|s rest IH]; [discriminate|].
  rewrite try_selectors_cons.
  destruct (selector_yield page s) as [q|] eqn:Hs.
  - intros [= ->]. exists s. split; [now left|exact Hs].
  - destruct (try_selectors rest page) as [ev r]. cbn [snd] in *.
    intros H. destruct (IH H) as (sel & Hin & Hy). exists sel.
    split; [now right|exact Hy].
Qed.

(** X7.  Every price the selector loop returns is the parse of the text of
    an element selected by one of the twelve selectors, and passed
    [validate_price]. *)
Theorem X7_price_comes_from_a_selected_element (page : response) (p : float) :
  snd (try_selectors price_selectors page) = Some p ->
  exists sel texts t,
    In sel price_selectors /\ select page sel = Some texts /\ In t texts /\
    parse_price t = Some p /\ validate_price p = true.
Proof.
  intros H. pose proof (try_selectors_valid _ _ _ H) as [Hv _].
  apply try_selectors_source in H. destruct H as (sel & Hin & Hy).
  unfold selector_yield in Hy.
  destruct (select page sel) as [texts|] eqn:Hsel; [|discriminate].
  apply first_valid_price_source in Hy. destruct Hy as (t & Ht & Hp).
  rewrite parse_price_of_clean, clean_strip, <- parse_price_of_clean in Hp.
  exists sel, texts, t. repeat split; assumption.
Qed.

Lemma X7_witness :
  exists sel texts t,
    In sel price_selectors /\ select page_two_prices sel = Some texts /\
    In t texts /\ parse_price t = Some (of_decimal 79999 2) /\
    validate_price (of_decimal 79999 2) = true.
Proof.
  apply (X7_price_comes_from_a_selected_element page_two_prices).
  vm_compute. reflexivity.
Defined.

Lemma after_request_some max_retries attempt env p :
  snd (after_request max_retries attempt env) = Some p
  <-> exists r,
        fetched env = Response r /\ raises_for_status r = false /\
        bot_detected (lower (text r)) = false /\
        snd (try_selectors price_selectors r) = Some p.
Proof.
  unfold after_request. split.
  - destruct (fetched env) as [| | |r]; try discriminate.
    destruct (raises_for_status r) eqn:Hs; [discriminate|].
    destruct (bot_detected (lower (text r))) eqn:Hb; [discriminate|].
    destruct (try_selectors price_selectors r) as [ev [q|]] eqn:E;
      [|discriminate].
    intros [= ->]. exists r. rewrite E. repeat split; assumption.
  - intros (r & -> & -> & -> & H).
    destruct (try_selectors price_selectors r) as [ev [q|]];
      cbn [snd] in *; [exact H|discriminate].
Qed.

Lemma after_request_none max_retries attempt env :
  snd (after_request max_retries attempt env) = None
  <-> exists f, attempt_failure env = Some f.
Proof.
  unfold after_request, attempt_failure.
  destruct (fetched env) as [| | |r]; try (split; eauto; fail).
  destruct (raises_for_status r); [split; eauto|].
  destruct (bot_detected (lower (text r))); [split; eauto|].
  destruct (try_selectors price_selectors r) as [ev [q|]]; cbn [snd].
  - split; [discriminate|intros [f H]; discriminate].
  - split; eauto.
Qed.

Lemma retry_loop_some url max_retries env remaining : forall attempt p,
  snd (retry_loop url max_retries env remaining attempt) = Some p
  <-> exists k,
        (attempt <= k < attempt + remaining)%nat /\
        (forall j, (attempt <= j < k)%nat ->
                   snd (after_request max_retries j (env j)) = None) /\
        snd (after_request max_retries k (env k)) = Some p.
Proof.
  induction remaining as [|n IH]; intros attempt p.
  - cbn. split; [discriminate|]. intros (k & Hk & _). lia.
  - cbn [retry_loop].
    pose proof (attempt_body_result url max_retries attempt (env attempt)) as Hb.
    destruct (attempt_body url max_retries attempt (env attempt)) as [ev [q|]];
      cbn [snd] in Hb.
    + cbn [snd]. split.
      * intros [= ->]. exists attempt. repeat split; [lia|lia| |now symmetry].
        intros j Hj. lia.
      * intros (k & Hk & Hbefore & Hp).
        destruct (Nat.eq_dec k attempt) as [->|Hne]; [congruence|].
        rewrite (Hbefore attempt) in Hb by lia. discriminate.
    + specialize (IH (S attempt) p).
      destruct (retry_loop url max_retries env n (S attempt)) as [ev' r'].
      cbn [snd] in *. rewrite IH. split.
      * intros (k & Hk & Hbefore & Hp). exists k. repeat split; try lia;
          [|exact Hp].
        intros j Hj. destruct (Nat.eq_dec j attempt) as [->|Hne];
          [now symmetry|]. apply Hbefore. lia.
      * intros (k & Hk & Hbefore & Hp).
        destruct (Nat.eq_dec k attempt) as [->|Hne]; [congruence|].
        exists k. repeat split; try lia; [|exact Hp].
        intros j Hj. apply Hbefore. lia.
Qed.

(** X8.  [get_price] returns a price exactly when some attempt within the
    budget gets a response whose status is accepted, whose text shows no bot
    indicator and on which the selector loop finds a price, all earlier
    attempts having failed; the price is the one found on that page. *)
Theorem X8_first_successful_attempt_decides (url : str) (max_retries : Z)
  (env : nat -> attempt_env) (p : float) :
  snd (get_price url max_retries env) = Some p
  <-> exists k r,
        (Z.of_nat k < max_retries)%Z /\
        (forall j, (j < k)%nat -> exists f, attempt_failure (env j) = Some f) /\
        fetched (env k) = Response r /\
        raises_for_status r = false /\
        bot_detected (lower (text r)) = false /\
        snd (try_selectors price_selectors r) = Some p.
Proof.
  unfold get_price. rewrite retry_loop_some. split.
  - intros (k & Hk & Hbefore & Hp).
    apply after_request_some in Hp. destruct Hp as (r & Hr).
    exists k, r. split; [lia|]. split; [|exact Hr].
    intros j Hj. apply (after_request_none max_retries j). apply Hbefore. lia.
  - intros (k & r & Hk & Hbefore & Hr).
    exists k. split; [lia|]. split.
    + intros j Hj. apply after_request_none. apply Hbefore. lia.
    + apply after_request_some. exists r. exact Hr.
Qed.

(** ** [get_price]: no wait after the last request *)

Lemma after_last_request_spec (pre post : list event) (g : event) :
  is_get g = true -> existsb is_get post = false ->
  after_last_request (pre ++ g :: post) = post.
Proof.
  intros Hg Hpost. induction pre as [|e pre IH].
  - cbn [app after_last_request]. now rewrite Hpost, Hg.
  - cbn [app after_last_request]. rewrite existsb_app. cbn [existsb].
    rewrite Hg, orb_true_r. exact IH.
Qed.

Lemma after_last_request_app (a b : list event) :
  existsb is_get b = true ->
  after_last_request (a ++ b) = after_last_request b.
Proof.
  intros Hb. induction a as [|e a IH]; [reflexivity|].
  cbn [app after_last_request]. rewrite existsb_app, Hb, orb_true_r.
  exact IH.
Qed.

Lemma no_get_existsb (l : list event) :
  forallb (fun e => negb (is_get e)) l = true -> existsb is_get l = false.
Proof.
  induction l as [|e l IH]; [reflexivity|]. simpl. intros H.
  apply andb_true_iff in H. destruct H as [He H].
  apply negb_true_iff in He. rewrite He. now apply IH.
Qed.

Lemma try_selectors_no_sleep selectors page :
  existsb is_sleep (fst (try_selectors selectors page)) = false.
Proof.
  induction selectors as [|s rest IH]; [reflexivity|].
  rewrite try_selectors_cons.
  destruct (selector_yield page s); [reflexivity|].
  destruct (try_selectors rest page) as [ev r]. cbn [fst] in *.
  destruct (select page s); exact IH.
Qed.

(** An iteration sleeps after its request only to wait out a bot
    detection, and only if another attempt follows. *)
Lemma after_request_no_sleep max_retries attempt env :
  (exists p, snd (after_request max_retries attempt env) = Some p)
  \/ (max_retries - 1 <= Z.of_nat attempt)%Z ->
  existsb is_sleep (fst (after_request max_retries attempt env)) = false.
Proof.
  unfold after_request. intros H.
  destruct (fetched env) as [| | |r]; try reflexivity.
  destruct (raises_for_status r); [reflexivity|].
  destruct (bot_detected (lower (text r))).
  - destruct H as [[p H]|H]; [discriminate|].
    cbn [fst]. now rewrite (proj2 (Z.ltb_ge _ _) H).
  - pose proof (try_selectors_no_sleep price_selectors r) as Hs.
    destruct (try_selectors price_selectors r) as [ev [q|]]; [exact Hs|].
    cbn [fst] in *. rewrite existsb_app, Hs. unfold no_price_events.
    now destruct (negb _ && negb _).
Qed.

Lemma retry_loop_has_get url max_retries env remaining attempt :
  existsb is_get
    (fst (retry_loop url max_retries env (S remaining) attempt)) = true.
Proof.
  destruct (retry_loop_trace url max_retries env remaining attempt)
    as (tail & -> & _).
  rewrite existsb_app. cbn [existsb is_get]. apply orb_true_r.
Qed.

Lemma retry_loop_last_request url max_retries env remaining : forall attempt,
  (max_retries <= Z.of_nat (attempt + remaining))%Z ->
  existsb is_sleep
    (after_last_request (fst (retry_loop url max_retries env remaining attempt)))
  = false.
Proof.
  induction remaining as [|n IH]; intros attempt Hb; [reflexivity|].
  cbn [retry_loop]. unfold attempt_body, request.
  fold (referer_events url).
  pose proof (after_request_no_get max_retries attempt (env attempt)) as Hng.
  pose proof (after_request_no_sleep max_retries attempt (env attempt)) as Hns.
  destruct (after_request max_retries attempt (env attempt)) as [ev [q|]];
    cbn [fst snd] in *.
  - replace (backoff attempt (jitter (env attempt))
             ++ ([SetupSession] ++ referer_events url ++ [HttpGet url]) ++ ev)
      with ((backoff attempt (jitter (env attempt))
             ++ SetupSession :: referer_events url) ++ HttpGet url :: ev)
      by (rewrite <- !app_assoc; reflexivity).
    rewrite after_last_request_spec;
      [|reflexivity|now apply no_get_existsb].
    apply Hns. left. eauto.
  - destruct n as [|n].
    + cbn [retry_loop fst].
      replace ((backoff attempt (jitter (env attempt))
                ++ ([SetupSession] ++ referer_events url ++ [HttpGet url])
                ++ ev) ++ [Log (MsgFailed max_retries)])
        with ((backoff attempt (jitter (env attempt))
               ++ SetupSession :: referer_events url)
              ++ HttpGet url :: (ev ++ [Log (MsgFailed max_retries)]))
        by (rewrite <- !app_assoc; reflexivity).
      rewrite after_last_request_spec; [|reflexivity|].
      * rewrite existsb_app, Hns by (right; lia). reflexivity.
      * rewrite existsb_app, (no_get_existsb ev Hng). reflexivity.
    + pose proof (retry_loop_has_get url max_retries env n (S attempt)) as Hget.
      specialize (IH (S attempt)).
      destruct (retry_loop url max_retries env (S n) (S attempt)) as [ev' r'].
      cbn [fst] in *. rewrite after_last_request_app by exact Hget.
      apply IH. lia.
Qed.

(** X9.  In every run of [get_price] nothing is slept after the last
    request: the wait that follows a bot detection is skipped on the last
    attempt of the budget, and a successful attempt returns at once. *)
Theorem X9_no_sleep_after_last_request (url : str) (max_retries : Z)
  (env : nat -> attempt_env) (pre post : list event) :
  fst (get_price url max_retries env) = pre ++ HttpGet url :: post ->
  existsb is_get post = false ->
  existsb is_sleep post = false.
Proof.
  intros Htrace Hpost.
  pose proof (retry_loop_last_request url max_retries env
                (Z.to_nat max_retries) 0 ltac:(lia)) as H.
  fold (get_price url max_retries env) in H.
  rewrite Htrace, after_last_request_spec in H; auto.
Qed.

Lemma X9_witness :
  existsb is_sleep [Log (MsgBotDetected 3); Log (MsgFailed 3)] = false.
Proof.
  apply (X9_no_sleep_after_last_request product_url 3 env_blocked
           (take 18 (fst (get_price product_url 3 env_blocked)))).
  - vm_compute. reflexivity.
  - reflexivity.
Defined.

(** ** The history and the previous price of an alert *)

Lemma previous_price_update (h : gmap str (list entry))
  (name : str) (p : float) (now : str) :
  previous_price (update_price_history h name p now) name
  = price <$> last (default [] (h !! name)).
Proof.
  unfold previous_price. rewrite update_price_history_lookup.
  remember (default [] (h !! name)) as old eqn:Eo. clear Eo.
  cbn [default]. unfold id.
  set (e := {| price := p; timestamp := now |}).
  rewrite length_last100, length_app. cbn [length].
  destruct (length old) as [|n] eqn:Hlen.
  - destruct old; [reflexivity|discriminate].
  - rewrite (proj2 (Nat.leb_le _ _)) by lia.
    unfold last100. rewrite lookup_drop, length_app, Hlen. cbn [length].
    replace (S n + 1 - 100 + (Nat.min 100 (S n + 1) - 2))%nat
      with n by lia.
    rewrite lookup_app_l by lia. rewrite last_lookup, Hlen. reflexivity.
Qed.

(** X10.  After [update_price_history], the previous price that
    [send_alert] reads from the history (the entry before the last) is the
    price recorded last before the update, whatever the length of the
    history; there is none when the product had no entry; the previous
    prices of the other products are unchanged. *)
Theorem X10_previous_price_after_update (h : gmap str (list entry))
  (name : str) (p : float) (now : str) :
  previous_price (update_price_history h name p now) name
  = price <$> last (default [] (h !! name))
  /\ (h !! name = None ->
      previous_price (update_price_history h name p now) name = None)
  /\ (forall other, other <> name ->
      previous_price (update_price_history h name p now) other
      = previous_price h other).
Proof.
  split; [apply previous_price_update|]. split.
  - intros Hnone. rewrite previous_price_update, Hnone. reflexivity.
  - intros other Hne. unfold previous_price.
    now rewrite update_price_history_other.
Qed.

(** X11.  Updates of different products commute: the history does not
    depend on the order in which two products are recorded. *)
Theorem X11_updates_of_different_products_commute
  (h : gmap str (list entry)) (n1 n2 : str) (p1 p2 : float) (t1 t2 : str) :
  n1 <> n2 ->
  update_price_history (update_price_history h n1 p1 t1) n2 p2 t2
  = update_price_history (update_price_history h n2 p2 t2) n1 p1 t1.
Proof.
  intros Hne. apply map_eq. intros q.
  destruct (decide (q = n1)) as [->|H1].
  - rewrite update_price_history_other by assumption.
    rewrite !update_price_history_lookup.
    now rewrite update_price_history_other by assumption.
  - destruct (decide (q = n2)) as [->|H2].
    + rewrite (update_price_history_other _ n1) by assumption.
      rewrite !update_price_history_lookup.
      now rewrite update_price_history_other by assumption.
    + now rewrite !update_price_history_other by assumption.
Qed.

Lemma X11_witness :
  update_price_history
    (update_price_history ∅ (lit "tv") (of_decimal 79999 2) (lit "t1"))
    (lit "phone") (of_decimal 49900 2) (lit "t2")
  = update_price_history
      (update_price_history ∅ (lit "phone") (of_decimal 49900 2) (lit "t2"))
      (lit "tv") (of_decimal 79999 2) (lit "t1").
Proof.
  apply X11_updates_of_different_products_commute. discriminate.
Defined.

(** ** The product configuration *)

Lemma split_first_comma_app (a b : str) :
  no_comma a -> split_first_comma (a ++ ","%char :: b) = Some (a, b).
Proof.
  induction 1 as [|c a Hc _ IH].
  - cbn [app split_first_comma]. now rewrite ascii_eqb_refl.
  - cbn [app split_first_comma]. now rewrite Hc, IH.
Qed.

Lemma split_first_comma_some (s a b : str) :
  split_first_comma s = Some (a, b) -> s = a ++ ","%char :: b /\ no_comma a.
Proof.
  revert a b. induction s as [|c s IH]; intros a b; [discriminate|].
  cbn [split_first_comma]. destruct (ascii_eqb c ",") eqn:E.
  - intros [= <- <-]. apply ascii_eqb_eq in E. subst c.
    split; [reflexivity|constructor].
  - destruct (split_first_comma s) as [[a' b']|]; [|discriminate].
    intros [= <- <-]. destruct (IH a' b' eq_refl) as [-> Ha].
    split; [reflexivity|]. now constructor.
Qed.

Lemma split_first_comma_none (s : str) :
  split_first_comma s = None <-> no_comma s.
Proof.
  induction s as [|c s IH]; [split; [constructor|reflexivity]|].
  cbn [split_first_comma]. destruct (ascii_eqb c ",") eqn:E.
  - split; [discriminate|]. intros H. inversion H; congruence.
  - destruct (split_first_comma s) as [[a b]|].
    + split; [discriminate|]. intros H. inversion H as [|? ? _ Hs]; subst.
      apply IH in Hs. discriminate.
    + split; [|reflexivity]. intros _. constructor; [exact E|now apply IH].
Qed.

(** X12.  A product configuration is cut at its first comma: the text
    before it (without comma) is the URL part and everything after it,
    further commas included, is the target part; a configuration is
    rejected exactly when it has no comma. *)
Theorem X12_configuration_is_cut_at_first_comma (s a b : str) :
  (split_first_comma s = Some (a, b) <-> s = a ++ ","%char :: b /\ no_comma a)
  /\ (split_first_comma s = None <-> no_comma s).
Proof.
  split; [|apply split_first_comma_none].
  split; [apply split_first_comma_some|].
  intros [-> Ha]. now apply split_first_comma_app.
Qed.

(** ** One cycle of price checks *)

Lemma saves_app (a b : list cycle_event) : saves (a ++ b) = saves a ++ saves b.
Proof. apply omap_app. Qed.

Lemma saves_cycle m (l : list cycle_event) : saves (Cycle m :: l) = saves l.
Proof. reflexivity. Qed.

Lemma saves_save h (l : list cycle_event) : saves (Save h :: l) = h :: saves l.
Proof. reflexivity. Qed.

Lemma saves_fetch (trace : list event) : saves (map Fetch trace) = [].
Proof. induction trace as [|e t IH]; [reflexivity|exact IH]. Qed.

Lemma saves_send_alert h name current target url outcome :
  saves (send_alert h name current target url outcome) = [].
Proof. now destruct outcome. Qed.

Lemma saves_pause n name delay : saves (pause_events n name delay) = [].
Proof.
  unfold pause_events. destruct (1 <? n)%nat; [|reflexivity].
  now destruct delay.
Qed.








Section CycleProperties.

Variable python_float : str -> option float.

(** The three ways through the body of the loop. *)
Lemma process_product_cases n h name product_config env :
  (exists m,
     process_product python_float n h name product_config env
     = ([Cycle m], h))
  \/ (exists part0 part1 target,
        split_first_comma product_config = Some (part0, part1) /\
        python_float (strip part1) = Some target /\
        ((snd (get_price (strip part0) 3 (fetch_env env)) = None /\
          process_product python_float n h name product_config env
          = ([Cycle (MsgChecking name); Cycle (MsgTarget target)]
             ++ map Fetch (fst (get_price (strip part0) 3 (fetch_env env)))
             ++ [Cycle (MsgNoCurrentPrice name)], h))
         \/ (exists current,
               snd (get_price (strip part0) 3 (fetch_env env)) = Some current /\
               process_product python_float n h name product_config env
               = (([Cycle (MsgChecking name); Cycle (MsgTarget target)]
                   ++ map Fetch (fst (get_price (strip part0) 3 (fetch_env env))))
                  ++ [Cycle (MsgCurrent current)]
                  ++ (if leb current target
                      then Cycle (MsgTargetHit name)
                           :: send_alert
                                (update_price_history h name current (now env))
                                name current target (strip part0) (smtp env)
                      else [Cycle (MsgAbove current target)])
                  ++ save_price_history
                       (update_price_history h name current (now env))
                       (save_ok env)
                  ++ pause_events n name (pause env),
                  update_price_history h name current (now env))))).
Proof.
  unfold process_product.
  destruct (split_first_comma product_config) as [[part0 part1]|];
    [|left; eauto].
  destruct (python_float (strip part1)) as [target|] eqn:Hf; [|left; eauto].
  right. exists part0, part1, target. split; [reflexivity|]. split; [exact Hf|].
  destruct (get_price (strip part0) 3 (fetch_env env)) as [trace [current|]].
  - right. exists current. split; reflexivity.
  - left. split; [reflexivity|]. cbn [fst]. now rewrite <- app_assoc.
Qed.

Lemma process_products_cons n h name product_config rest env index :
  process_products python_float n h ((name, product_config) :: rest) env index
  = (fst (process_product python_float n h name product_config (env index))
     ++ fst (process_products python_float n
               (snd (process_product python_float n h name product_config
                       (env index)))
               rest env (S index)),
     snd (process_products python_float n
            (snd (process_product python_float n h name product_config
                    (env index)))
            rest env (S index))).
Proof.
  cbn [process_products].
  destruct (process_product python_float n h name product_config (env index))
    as [ev h1]. cbn [fst snd].
  now destruct (process_products python_float n h1 rest env (S index)).
Qed.

(** A rule for the loop: what every iteration keeps and emits, the loop
    keeps and emits. *)
Lemma process_products_rule (P : gmap str (list entry) -> Prop)
  (Q : cycle_event -> Prop) n items env :
  (forall h name product_config e,
     P h -> In (name, product_config) items ->
     P (snd (process_product python_float n h name product_config e))
     /\ Forall Q (fst (process_product python_float n h name product_config e))) ->
  forall h index, P h ->
    P (snd (process_products python_float n h items env index))
    /\ Forall Q (fst (process_products python_float n h items env index)).
Proof.
  induction items as [|[name product_config] rest IH]; intros Hstep h index Hh.
  - split; [exact Hh|constructor].
  - rewrite process_products_cons. cbn [fst snd].
    destruct (Hstep h name product_config (env index) Hh) as [H1 HQ1];
      [now left|].
    destruct (IH (fun h0 nm pc e Hp Hin => Hstep h0 nm pc e Hp (or_intror Hin))
                _ (S index) H1) as [H2 HQ2].
    split; [exact H2|]. apply Forall_app. now split.
Qed.

(** The events and the history of a cycle with products. *)
Lemma run_single_check_rule (P : gmap str (list entry) -> Prop)
  (Q : cycle_event -> Prop) cfg h env :
  (forall m, Q (Cycle m)) -> Q Raised ->
  (forall items h0 name product_config e,
     products cfg = Some items ->
     P h0 -> In (name, product_config) items ->
     P (snd (process_product python_float (length items) h0 name
               product_config e))
     /\ Forall Q (fst (process_product python_float (length items) h0 name
                         product_config e))) ->
  P h ->
  P (snd (run_single_check python_float cfg h env))
  /\ Forall Q (fst (run_single_check python_float cfg h env)).
Proof.
  intros Hlog Hraised Hstep Hh. unfold run_single_check.
  destruct (products cfg) as [[|item items]|] eqn:Hp.
  - split; [exact Hh|]. repeat constructor; apply Hlog.
  - destruct (check_interval cfg) as [ci|].
    2:{ split; [exact Hh|]. repeat constructor; [apply Hlog|exact Hraised]. }
    destruct (process_products_rule P Q (length (item :: items))
                (item :: items) env
                (fun h0 nm pc e => Hstep (item :: items) h0 nm pc e eq_refl)
                h 0%nat Hh) as [H1 H2].
    destruct (process_products python_float (length (item :: items)) h
                (item :: items) env 0) as [ev h1]. cbn [fst snd] in *.
    split; [exact H1|].
    constructor; [apply Hlog|]. apply Forall_app. split; [exact H2|].
    repeat constructor. apply Hlog.
  - split; [exact Hh|]. repeat constructor; apply Hlog.
Qed.

Lemma in_send_alert_email h name current target url outcome mail :
  In (Email mail) (send_alert h name current target url outcome) ->
  mail = {| alert_product := name; alert_price := current;
            alert_target := target; alert_url := url;
            alert_savings := savings_of (previous_price h name) current |}.
Proof.
  destruct outcome; simpl; intuition congruence.
Qed.

(** What an e-mail sent while processing a product says. *)
Lemma process_product_email n h name product_config env mail :
  In (Email mail)
    (fst (process_product python_float n h name product_config env)) ->
  exists part0 part1,
    split_first_comma product_config = Some (part0, part1) /\
    python_float (strip part1) = Some (alert_target mail) /\
    alert_product mail = name /\
    alert_url mail = strip part0 /\
    snd (get_price (strip part0) 3 (fetch_env env)) = Some (alert_price mail) /\
    leb (alert_price mail) (alert_target mail) = true /\
    alert_savings mail
    = savings_of (price <$> last (default [] (h !! name))) (alert_price mail).
Proof.
  destruct (process_product_cases n h name product_config env)
    as [(m & ->)|(part0 & part1 & target & Hs & Hf & [[Hg ->]|(cur & Hg & ->)])];
    cbn [fst]; intros Hin.
  - destruct Hin as [Hin|[]]. discriminate.
  - apply in_app_iff in Hin. destruct Hin as [Hin|Hin].
    { simpl in Hin. intuition discriminate. }
    apply in_app_iff in Hin. destruct Hin as [Hin|Hin].
    { apply in_map_iff in Hin. destruct Hin as (x & Hx & _). discriminate. }
    simpl in Hin. intuition discriminate.
  - apply in_app_iff in Hin. destruct Hin as [Hin|Hin].
    { apply in_app_iff in Hin. destruct Hin as [Hin|Hin].
      - simpl in Hin. intuition discriminate.
      - apply in_map_iff in Hin. destruct Hin as (x & Hx & _). discriminate. }
    apply in_app_iff in Hin. destruct Hin as [Hin|Hin].
    { simpl in Hin. intuition discriminate. }
    apply in_app_iff in Hin. destruct Hin as [Hin|Hin].
    + destruct (leb cur target) eqn:Hle.
      * destruct Hin as [Hin|Hin]; [discriminate|].
        apply in_send_alert_email in Hin. subst mail. cbn.
        exists part0, part1. rewrite previous_price_update.
        repeat split; assumption.
      * simpl in Hin. intuition discriminate.
    + apply in_app_iff in Hin. destruct Hin as [Hin|Hin].
      * unfold save_price_history in Hin.
        destruct (save_ok env); simpl in Hin; intuition discriminate.
      * unfold pause_events in Hin.
        destruct (1 <? n)%nat; [|destruct Hin].
        destruct (pause env); simpl in Hin; intuition discriminate.
Qed.

(** X13.  Every alert e-mailed during a cycle is for a configured product,
    links to the stripped URL part of its configuration, carries the target
    converted from its target part, and reports a price that passes
    [validate_price] and is at most that target. *)
Theorem X13_alerts_are_justified (cfg : config) (h : gmap str (list entry))
  (env : nat -> product_env) (mail : alert) :
  In (Email mail) (fst (run_single_check python_float cfg h env)) ->
  exists items product_config part0 part1,
    products cfg = Some items /\
    In (alert_product mail, product_config) items /\
    split_first_comma product_config = Some (part0, part1) /\
    alert_url mail = strip part0 /\
    python_float (strip part1) = Some (alert_target mail) /\
    validate_price (alert_price mail) = true /\
    leb (alert_price mail) (alert_target mail) = true.
Proof.
  intros Hin.
  pose (Q := fun ev => forall m, ev = Email m ->
     exists items product_config part0 part1,
       products cfg = Some items /\
       In (alert_product m, product_config) items /\
       split_first_comma product_config = Some (part0, part1) /\
       alert_url m = strip part0 /\
       python_float (strip part1) = Some (alert_target m) /\
       validate_price (alert_price m) = true /\
       leb (alert_price m) (alert_target m) = true).
  destruct (run_single_check_rule (fun _ => True) Q cfg h env) as [_ HQ];
    [discriminate|discriminate| |exact I|].
  - intros items h0 name product_config e Hp _ Hitem. split; [exact I|].
    apply Forall_forall. intros ev Hev m ->.
    apply list_elem_of_In in Hev.
    apply process_product_email in Hev.
    destruct Hev as (part0 & part1 & Hs & Hf & <- & Hu & Hg & Hle & _).
    exists items, product_config, part0, part1.
    repeat split; try assumption.
    apply (retry_loop_valid _ _ _ _ _ _ Hg).
  - rewrite Forall_forall in HQ.
    apply (HQ (Email mail)); [now apply list_elem_of_In|reflexivity].
Qed.

(** X14.  The savings of an alert are computed against the price recorded
    last before this check (the new price is recorded first, and the entry
    before it is read): they are shown only if that price exists, is not
    zero and is greater than the current price, and never for the first
    recorded price of a product. *)
Theorem X14_savings_refer_to_previous_record (n : nat)
  (h : gmap str (list entry)) (name product_config : str)
  (env : product_env) (mail : alert) :
  In (Email mail)
    (fst (process_product python_float n h name product_config env)) ->
  alert_savings mail
  = savings_of (price <$> last (default [] (h !! name))) (alert_price mail)
  /\ (forall savings percent previous,
       alert_savings mail = Some (savings, percent, previous) ->
       price <$> last (default [] (h !! name)) = Some previous /\
       truthy previous = true /\ ltb (alert_price mail) previous = true /\
       savings = float_sub previous (alert_price mail))
  /\ (h !! name = None -> alert_savings mail = None).
Proof.
  intros Hin. apply process_product_email in Hin.
  destruct Hin as (_ & _ & _ & _ & _ & _ & _ & _ & Hsav).
  split; [exact Hsav|]. split.
  - intros savings percent previous Hs. rewrite Hsav in Hs.
    unfold savings_of in Hs.
    destruct (price <$> last (default [] (h !! name))) as [prev|];
      [|discriminate].
    destruct (truthy prev && ltb (alert_price mail) prev) eqn:E;
      [|discriminate].
    injection Hs as <- _ <-. apply andb_true_iff in E.
    repeat split; tauto.
  - intros Hnone. rewrite Hsav, Hnone. reflexivity.
Qed.

Lemma in_save_events h writable snap :
  In (Save snap) (save_price_history h writable) -> snap = h.
Proof. destruct writable; simpl; intuition congruence. Qed.

(** The snapshots written while processing a product are the history it
    returns. *)
Lemma process_product_save n h name product_config env snap :
  In (Save snap)
    (fst (process_product python_float n h name product_config env)) ->
  snap = snd (process_product python_float n h name product_config env).
Proof.
  destruct (process_product_cases n h name product_config env)
    as [(m & ->)|(part0 & part1 & target & Hs & Hf & [[Hg ->]|(cur & Hg & ->)])];
    cbn [fst snd]; intros Hin.
  - destruct Hin as [Hin|[]]. discriminate.
  - apply in_app_iff in Hin. destruct Hin as [Hin|Hin].
    { simpl in Hin. intuition discriminate. }
    apply in_app_iff in Hin. destruct Hin as [Hin|Hin].
    { apply in_map_iff in Hin. destruct Hin as (x & Hx & _). discriminate. }
    simpl in Hin. intuition discriminate.
  - apply in_app_iff in Hin. destruct Hin as [Hin|Hin].
    { apply in_app_iff in Hin. destruct Hin as [Hin|Hin].
      - simpl in Hin. intuition discriminate.
      - apply in_map_iff in Hin. destruct Hin as (x & Hx & _). discriminate. }
    apply in_app_iff in Hin. destruct Hin as [Hin|Hin].
    { simpl in Hin. intuition discriminate. }
    apply in_app_iff in Hin. destruct Hin as [Hin|Hin].
    + destruct (leb cur target).
      * destruct Hin as [Hin|Hin]; [discriminate|].
        destruct (smtp env); simpl in Hin; intuition discriminate.
      * simpl in Hin. intuition discriminate.
    + apply in_app_iff in Hin. destruct Hin as [Hin|Hin].
      * now apply in_save_events in Hin.
      * unfold pause_events in Hin.
        destruct (1 <? n)%nat; [|destruct Hin].
        destruct (pause env); simpl in Hin; intuition discriminate.
Qed.

(** The history after a product: unchanged, or updated with the price
    retrieved. *)
Lemma process_product_history n h name product_config env :
  snd (process_product python_float n h name product_config env) = h
  \/ exists current,
       snd (process_product python_float n h name product_config env)
       = update_price_history h name current (now env).
Proof.
  destruct (process_product_cases n h name product_config env)
    as [(m & ->)|(part0 & part1 & target & Hs & Hf & [[Hg ->]|(cur & Hg & ->)])];
    cbn [snd]; eauto.
Qed.

(** X15.  A cycle keeps the bound of 100 entries per product: if the
    history respects it before the cycle, so do the history after the cycle
    and every snapshot written to the history file during it. *)
Theorem X15_cycle_keeps_history_bounded (cfg : config)
  (h : gmap str (list entry)) (env : nat -> product_env) :
  bounded_history h ->
  bounded_history (snd (run_single_check python_float cfg h env))
  /\ forall snap,
       In (Save snap) (fst (run_single_check python_float cfg h env)) ->
       bounded_history snap.
Proof.
  intros Hb.
  destruct (run_single_check_rule bounded_history
              (fun ev => forall snap, ev = Save snap -> bounded_history snap)
              cfg h env) as [H1 H2]; [discriminate|discriminate| |exact Hb|].
  - intros items h0 name product_config e _ Hh0 _.
    assert (Hafter : bounded_history
              (snd (process_product python_float (length items) h0 name
                      product_config e))).
    { destruct (process_product_history (length items) h0 name
                  product_config e) as [->|(cur & ->)]; [exact Hh0|].
      now apply update_price_history_bounded. }
    split; [exact Hafter|].
    apply Forall_forall. intros ev Hev snap ->.
    apply list_elem_of_In, process_product_save in Hev. now subst snap.
  - split; [exact H1|]. intros snap Hin. rewrite Forall_forall in H2.
    apply (H2 (Save snap)); [now apply list_elem_of_In|reflexivity].
Qed.

(** X16.  A cycle touches the histories of the configured products only:
    the list of any other product is the same after the cycle, and without
    a [products] section or with an empty one the history is unchanged. *)
Theorem X16_cycle_leaves_other_products_alone (cfg : config)
  (h : gmap str (list entry)) (env : nat -> product_env) (q : str) :
  (forall items, products cfg = Some items -> ~ In q (map fst items)) ->
  snd (run_single_check python_float cfg h env) !! q = h !! q.
Proof.
  intros Hq.
  destruct (run_single_check_rule (fun h' => h' !! q = h !! q)
              (fun _ => True) cfg h env) as [H1 _];
    [constructor|constructor| |reflexivity|exact H1].
  intros items h0 name product_config e Hp Hh0 Hitem.
  split; [|apply Forall_forall; constructor].
  destruct (process_product_history (length items) h0 name product_config e)
    as [->|(cur & ->)]; [exact Hh0|].
  rewrite update_price_history_other; [exact Hh0|].
  intros ->. apply (Hq items Hp). apply in_map_iff.
  now exists (name, product_config).
Qed.




(** The snapshots of one product when the file can be written. *)
Lemma process_product_saves n h name product_config env :
  save_ok env = true ->
  (snd (process_product python_float n h name product_config env) = h
   /\ saves (fst (process_product python_float n h name product_config env))
      = [])
  \/ saves (fst (process_product python_float n h name product_config env))
     = [snd (process_product python_float n h name product_config env)].
Proof.
  intros Hok.
  destruct (process_product_cases n h name product_config env)
    as [(m & ->)|(part0 & part1 & target & Hs & Hf & [[Hg ->]|(cur & Hg & ->)])];
    cbn [fst snd].
  - left. split; reflexivity.
  - left. split; [reflexivity|].
    rewrite !saves_app, saves_fetch. reflexivity.
  - right. rewrite !saves_app, saves_fetch, saves_pause.
    unfold save_price_history. rewrite Hok.
    destruct (leb cur target);
      rewrite ?saves_cycle, ?saves_send_alert, ?saves_save; reflexivity.
Qed.

Lemma process_products_saves n items env : forall h index,
  (forall i, save_ok (env i) = true) ->
  snd (process_products python_float n h items env index)
  = default h (last (saves (fst (process_products python_float n h items
                                   env index)))).
Proof.
  induction items as [|[name product_config] rest IH]; intros h index Hok;
    [reflexivity|].
  rewrite process_products_cons. cbn [fst snd]. rewrite saves_app.
  rewrite (IH _ (S index) Hok).
  destruct (process_product_saves n h name product_config (env index)
              (Hok index)) as [[-> ->]| ->]; [reflexivity|].
  set (h1 := snd (process_product python_float n h name product_config
                    (env index))).
  destruct (saves (fst (process_products python_float n h1 rest env (S index))))
    as [|s0 l] eqn:E; [reflexivity|].
  change ([h1] ++ s0 :: l) with (h1 :: s0 :: l).
  rewrite last_cons_cons.
  destruct (last (s0 :: l)) eqn:El; [reflexivity|].
  apply last_None in El. discriminate.
Qed.

(** X18.  When the history file can be written, nothing is left unsaved at
    the end of a cycle: the history after the cycle is the last snapshot
    written, or the initial history if none was written. *)
Theorem X18_cycle_ends_with_history_saved (cfg : config)
  (h : gmap str (list entry)) (env : nat -> product_env) :
  (forall i, save_ok (env i) = true) ->
  snd (run_single_check python_float cfg h env)
  = default h (last (saves (fst (run_single_check python_float cfg h env)))).
Proof.
  intros Hok. unfold run_single_check.
  destruct (products cfg) as [[|item items]|]; try reflexivity.
  destruct (check_interval cfg) as [ci|]; [|reflexivity].
  pose proof (process_products_saves (length (item :: items)) (item :: items)
                env h 0%nat Hok) as H.
  destruct (process_products python_float (length (item :: items)) h
              (item :: items) env 0) as [ev h1]. cbn [fst snd] in *.
  change (Cycle MsgCycleStart :: ev ++ [Cycle MsgCycleDone])
    with ([Cycle MsgCycleStart] ++ ev ++ [Cycle MsgCycleDone]).
  rewrite !saves_app, !saves_cycle. cbn [app]. now rewrite app_nil_r.
Qed.



Lemma process_products_app n l1 l2 env : forall h index,
  process_products python_float n h (l1 ++ l2) env index
  = (fst (process_products python_float n h l1 env index)
     ++ fst (process_products python_float n
               (snd (process_products python_float n h l1 env index))
               l2 env (index + length l1)),
     snd (process_products python_float n
            (snd (process_products python_float n h l1 env index))
            l2 env (index + length l1))).
Proof.
  induction l1 as [|[name product_config] rest IH]; intros h index.
  - cbn [app process_products fst snd length]. rewrite Nat.add_0_r.
    now destruct (process_products python_float n h l2 env index).
  - change (((name, product_config) :: rest) ++ l2)
      with ((name, product_config) :: (rest ++ l2)).
    rewrite !process_products_cons. cbn [fst snd length].
    rewrite IH. cbn [fst snd].
    replace (S index + length rest)%nat with (index + S (length rest))%nat
      by lia.
    now rewrite app_assoc.
Qed.

(** A product whose price is retrieved ends with the wait. *)
Lemma process_product_ends_with_pause n h name product_config env
  part0 part1 target d :
  (1 <? n)%nat = true ->
  split_first_comma product_config = Some (part0, part1) ->
  python_float (strip part1) = Some target ->
  snd (get_price (strip part0) 3 (fetch_env env)) <> None ->
  pause env = Slept d ->
  exists before,
    fst (process_product python_float n h name product_config env)
    = before ++ [Cycle (MsgWaiting d); Pause d].
Proof.
  intros Hn Hs Hf Hg Hd. unfold process_product. rewrite Hs, Hf.
  destruct (get_price (strip part0) 3 (fetch_env env)) as [trace [current|]];
    [|now cbn in Hg].
  cbn [fst]. rewrite Hd. unfold pause_events. rewrite Hn.
  match goal with
  | |- exists before, ?A ++ ?B ++ ?C ++ ?D ++ _ = _ =>
      exists (A ++ B ++ C ++ D)
  end.
  now rewrite <- !app_assoc.
Qed.

(** X22.  With two or more products the cycle also sleeps after the last
    one: when the last product's price is retrieved and [time.sleep]
    returns, the cycle ends with the announcement of the wait, the wait and
    the record of completion, although no product follows. *)
Theorem X22_cycle_sleeps_after_last_product (cfg : config)
  (h : gmap str (list entry)) (env : nat -> product_env)
  (items : list (str * str)) (name product_config part0 part1 : str)
  (target : float) (interval : Z) (d : float) :
  products cfg = Some (items ++ [(name, product_config)]) ->
  items <> [] ->
  check_interval cfg = Some interval ->
  split_first_comma product_config = Some (part0, part1) ->
  python_float (strip part1) = Some target ->
  snd (get_price (strip part0) 3 (fetch_env (env (length items)))) <> None ->
  pause (env (length items)) = Slept d ->
  exists before,
    fst (run_single_check python_float cfg h env)
    = before ++ [Cycle (MsgWaiting d); Pause d; Cycle MsgCycleDone].
Proof.
  intros Hp Hne Hci Hs Hf Hg Hd. unfold run_single_check. rewrite Hp, Hci.
  destruct items as [|item0 rest]; [congruence|].
  change ((item0 :: rest) ++ [(name, product_config)])
    with (item0 :: (rest ++ [(name, product_config)])).
  cbv beta iota.
  change (item0 :: (rest ++ [(name, product_config)]))
    with ((item0 :: rest) ++ [(name, product_config)]).
  set (n := length ((item0 :: rest) ++ [(name, product_config)])).
  assert (Hn : (1 <? n)%nat = true).
  { apply Nat.ltb_lt. subst n. rewrite length_app. cbn. lia. }
  clearbody n.
  rewrite process_products_app. cbn [fst snd Nat.add].
  set (ev1 := fst (process_products python_float n h (item0 :: rest) env 0)).
  set (h1 := snd (process_products python_float n h (item0 :: rest) env 0)).
  clearbody ev1 h1.
  rewrite process_products_cons. cbn [process_products fst snd].
  rewrite app_nil_r.
  destruct (process_product_ends_with_pause n h1 name product_config
              (env (length (item0 :: rest))) part0 part1 target d
              Hn Hs Hf Hg Hd) as [before ->].
  exists (Cycle MsgCycleStart :: ev1 ++ before).
  cbn [app]. f_equal. now rewrite <- !app_assoc.
Qed.

End CycleProperties.

(** ** The cycle on the sample configuration *)

Lemma X13_witness :
  exists items product_config part0 part1,
    products two_products = Some items /\
    In (alert_product (mail_tv None), product_config) items /\
    split_first_comma product_config = Some (part0, part1) /\
    alert_url (mail_tv None) = strip part0 /\
    py_float (strip part1) = Some (alert_target (mail_tv None)) /\
    validate_price (alert_price (mail_tv None)) = true /\
    leb (alert_price (mail_tv None)) (alert_target (mail_tv None)) = true.
Proof.
  apply (X13_alerts_are_justified py_float two_products ∅ env_cycle).
  apply (nth_error_In _ 9). vm_compute. reflexivity.
Defined.

Lemma X14_witness :
  alert_savings
    (mail_tv (savings_of (Some (of_decimal 89900 2)) (of_decimal 79999 2)))
  = savings_of
      (price <$> last (default []
         (update_price_history ∅ (lit "tv") (of_decimal 89900 2) (lit "t0")
          !! lit "tv")))
      (alert_price
         (mail_tv (savings_of (Some (of_decimal 89900 2)) (of_decimal 79999 2)))).
Proof.
  refine (proj1 (X14_savings_refer_to_previous_record py_float 2
            (update_price_history ∅ (lit "tv") (of_decimal 89900 2) (lit "t0"))
            (lit "tv") (lit " https://www.amazon.com/dp/B0 , 800")
            (env_cycle 0) _ _)).
  apply (nth_error_In _ 8). vm_compute. reflexivity.
Defined.

Lemma X15_witness :
  bounded_history (snd (run_single_check py_float two_products ∅ env_cycle)).
Proof.
  refine (proj1 (X15_cycle_keeps_history_bounded py_float two_products ∅
                   env_cycle _)).
  intros q l H. rewrite lookup_empty in H. discriminate.
Defined.

Lemma X16_witness :
  snd (run_single_check py_float two_products ∅ env_cycle) !! lit "camera"
  = (∅ : gmap str (list entry)) !! lit "camera".
Proof.
  apply X16_cycle_leaves_other_products_alone.
  intros items [= <-]. simpl. intuition discriminate.
Defined.


Lemma X18_witness :
  snd (run_single_check py_float two_products ∅ env_cycle)
  = default ∅
      (last (saves (fst (run_single_check py_float two_products ∅ env_cycle)))).
Proof.
  apply X18_cycle_ends_with_history_saved. reflexivity.
Defined.

Lemma X22_witness :
  exists before,
    fst (run_single_check py_float two_products ∅ env_cycle)
    = before ++ [Cycle (MsgWaiting (of_Z 20)); Pause (of_Z 20);
                 Cycle MsgCycleDone].
Proof.
  eapply (X22_cycle_sleeps_after_last_product py_float two_products ∅
            env_cycle [(lit "tv", lit " https://www.amazon.com/dp/B0 , 800")]
            (lit "phone") (lit "https://www.amazon.com/dp/B1,500.00")).
  - reflexivity.
  - discriminate.
  - reflexivity.
  - vm_compute. reflexivity.
  - vm_compute. reflexivity.
  - vm_compute. discriminate.
  - reflexivity.
Defined.

(** ** [load_config] *)


(** ** The elements of a selector *)

Lemma validate_price_truthy (p : float) :
  validate_price p = true -> truthy p = true.
Proof.
  destruct p as [s|s| |s m e]; try reflexivity.
  unfold validate_price. rewrite price_min_value. discriminate.
Qed.

(** X21.  Among the elements of a selector the first one whose text parses
    to a price in range gives the price; the elements before it, whose
    texts do not parse or parse out of range, are skipped.  The test that
    the price is not zero adds nothing to the range check. *)
Theorem X21_first_element_in_range_wins (texts : list str) (p : float) :
  first_valid_price texts = Some p
  <-> exists pre t post,
        texts = pre ++ t :: post /\
        (forall t' q, In t' pre -> parse_price t' = Some q ->
                      validate_price q = false) /\
        parse_price t = Some p /\ validate_price p = true.
Proof.
  split.
  - induction texts as [|t texts IH]; [discriminate|].
    cbn [first_valid_price].
    rewrite parse_price_of_clean, clean_strip, <- parse_price_of_clean.
    destruct (parse_price t) as [q|] eqn:Hq.
    + destruct (truthy q && validate_price q) eqn:E.
      * intros [= ->]. apply andb_true_iff in E.
        exists [], t, texts. repeat split; try tauto. intros t' q' [].
      * intros H. destruct (IH H) as (pre & t0 & post & -> & Hpre & Ht0).
        exists (t :: pre), t0, post. split; [reflexivity|].
        split; [|exact Ht0].
        intros t' q' [<-|Hin] Hp; [|now apply (Hpre t' q')].
        assert (q' = q) as -> by congruence.
        destruct (validate_price q) eqn:Hv; [|reflexivity].
        now rewrite (validate_price_truthy q Hv) in E.
    + intros H. destruct (IH H) as (pre & t0 & post & -> & Hpre & Ht0).
      exists (t :: pre), t0, post. split; [reflexivity|].
      split; [|exact Ht0].
      intros t' q' [<-|Hin] Hp; [congruence|now apply (Hpre t' q')].
  - intros (pre & t & post & -> & Hpre & Hp & Hv).
    induction pre as [|t0 pre IH]; cbn [app first_valid_price];
      rewrite parse_price_of_clean, clean_strip, <- parse_price_of_clean.
    + now rewrite Hp, Hv, (validate_price_truthy p Hv).
    + destruct (parse_price t0) as [q|] eqn:Hq.
      * rewrite (Hpre t0 q (or_introl eq_refl) Hq), andb_false_r.
        apply IH. intros t' q' Hin. apply Hpre. now right.
      * apply IH. intros t' q' Hin. apply Hpre. now right.
Qed.
